(** * duckdb.asyncio: the single-worker agent and its session/cursor facades

    A shallow embedding of [src/duckdb/asyncio/core.py] and
    [src/duckdb/asyncio/utils.py].

    The asyncio event loop is cooperative: a coroutine runs without
    interruption from one suspension point to the next.  The embedding
    therefore has two layers over one [World]:

    - an interleaving layer ([Event], [step], [exec]) whose transitions are
      the uninterrupted segments of [Agent.submit], [Agent.start],
      [Agent.stop] and [Agent.run]; any number of caller coroutines may fire
      them in any order;
    - a sequential layer (the monad [M]) for one caller coroutine: whenever
      the caller awaits a pending future or the worker task, the agent's
      worker is resumed until the awaited object is done.

    The DuckDB engine is an external collaborator and is kept abstract in
    the class [Engine]. *)

From stdpp Require Import base list strings gmap.
From Stdlib Require Import ZArith Lia.

Local Open Scope string_scope.
Local Open Scope list_scope.
Local Open Scope nat_scope.

(** ** Values, exceptions and the engine *)

(** A reference to an engine object (a [DuckDBPyConnection]). *)
Abbreviation hid := nat.

(** A future created by [loop.create_future()], named by creation order. *)
Abbreviation fid := nat.

Definition Row := list Z.

Inductive Value :=
| VNone
| VInt (z : Z)
| VStr (s : string)
| VRows (rs : list Row)
| VHandle (h : hid).

(** A raised exception object.  [exn_is_exception] tells whether its class
    derives from [Exception]; [KeyboardInterrupt], [SystemExit] and the like
    derive from [BaseException] only. *)
Record Exn := { exn_name : string; exn_is_exception : bool }.

Inductive outcome :=
| Returned (v : Value)
| Raised (e : Exn).

(** The synchronous DuckDB API: [call h name args] is the call of method
    [name] of [h] on [args], a blocking call that returns or raises and
    changes the engine state; [attr h name] reads a data attribute. *)
Class Engine := {
  DB : Type;
  call : hid → string → list Value → DB → outcome * DB;
  attr : hid → string → DB → Value;
}.

Definition InvalidStateError : Exn :=
  {| exn_name := "InvalidStateError"; exn_is_exception := true |}.
Definition TypeError : Exn :=
  {| exn_name := "TypeError"; exn_is_exception := true |}.
Definition RuntimeError : Exn :=
  {| exn_name := "RuntimeError"; exn_is_exception := true |}.
Definition StopIteration : Exn :=
  {| exn_name := "StopIteration"; exn_is_exception := true |}.
Definition StopAsyncIteration : Exn :=
  {| exn_name := "StopAsyncIteration"; exn_is_exception := true |}.

(** The two classes that asyncio and generators treat apart.  Classes are
    told apart by name: an object of a subclass of one of them stands under
    the name of that class. *)
Definition is_stop_iteration (e : Exn) : bool :=
  String.eqb (exn_name e) "StopIteration".
Definition is_stop_async_iteration (e : Exn) : bool :=
  String.eqb (exn_name e) "StopAsyncIteration".

(** An outcome that a future can carry: [Future.set_exception] refuses
    [StopIteration], so the result of a thread that raised it never reaches
    the task that awaits [asyncio.to_thread]. *)
Definition carried (o : outcome) : bool :=
  match o with
  | Returned _ => true
  | Raised e => negb (is_stop_iteration e)
  end.

Section Bridge.
Context {E : Engine}.

(** ** The agent and the event loop *)

(** A callable handed to [submit]; positional and keyword arguments travel
    in one list. *)
Definition Callable := list Value → DB → outcome * DB.

(** A queue entry [(future, func, args, kwargs)]. *)
Record Task := { t_future : fid; t_func : Callable; t_args : list Value }.

(** The fields of [Agent] ([loop] is the single event loop of the world). *)
Record Agent := {
  worker : option nat;
  running : bool;
  queue : list Task;
}.

(** Where a task created from [Agent.run] stands: about to test the loop
    condition (just created, or suspended in [sleep(0)]), suspended in
    [to_thread] with a dequeued entry, returned through [break], or ended by
    an exception that left the loop. *)
Inductive WState :=
| WReady
| WBusy (t : Task)
| WExited
| WFailed.

Record World := {
  agent : Agent;
  tasks : list WState;
  futures : list (option outcome);
  db : DB;
}.

(** [Agent.__init__] *)
Definition new_agent : Agent :=
  {| worker := None; running := false; queue := [] |}.

Definition fresh (d : DB) : World :=
  {| agent := new_agent; tasks := []; futures := []; db := d |}.

Definition set_agent (a : Agent) (w : World) : World :=
  {| agent := a; tasks := tasks w; futures := futures w; db := db w |}.

Definition set_task (i : nat) (s : WState) (w : World) : World :=
  {| agent := agent w; tasks := <[i := s]> (tasks w);
     futures := futures w; db := db w |}.

Definition set_running (b : bool) (a : Agent) : Agent :=
  {| worker := worker a; running := b; queue := queue a |}.

Definition set_queue (q : list Task) (a : Agent) : Agent :=
  {| worker := worker a; running := running a; queue := q |}.

Definition is_empty (q : list Task) : bool :=
  match q with [] => true | _ => false end.

(** [Agent.submit]: the queue is unbounded, so [put] does not suspend and
    the whole body is one uninterrupted segment. *)
Definition submit_world (func : Callable) (args : list Value) (w : World) : fid * World :=
  let f := length (futures w) in
  (f, {| agent := set_queue (queue (agent w) ++
                               [{| t_future := f; t_func := func; t_args := args |}])
                            (agent w);
         tasks := tasks w;
         futures := futures w ++ [None];
         db := db w |}).

(** [Agent.start] *)
Definition start_world (w : World) : World :=
  if negb (running (agent w)) then
    {| agent := {| worker := Some (length (tasks w)); running := true;
                   queue := queue (agent w) |};
       tasks := tasks w ++ [WReady];
       futures := futures w;
       db := db w |}
  else w.

(** The first segment of [Agent.stop], up to [await self.worker]. *)
Definition stop_flag (w : World) : World :=
  if running (agent w) then set_agent (set_running false (agent w)) w else w.

(** [future.set_result] / [future.set_exception]: only a pending future
    accepts an outcome. *)
Definition resolve (f : fid) (o : outcome) (fs : list (option outcome))
  : option (list (option outcome)) :=
  match fs !! f with
  | Some None => Some (<[f := Some o]> fs)
  | _ => None
  end.

(** One pass over the head of [while True:] in [Agent.run], for the task
    [i], up to its next suspension point. *)
Definition loop_top (i : nat) (w : World) : World :=
  let a := agent w in
  if negb (running a) && is_empty (queue a) then set_task i WExited w
  else if running a && is_empty (queue a) then set_task i WReady w
  else match queue a with
       | t :: q => set_task i (WBusy t) (set_agent (set_queue q a) w)
       | [] => set_task i WReady w
       end.

(** The event loop resumes task [i]: a ready task tests the loop condition;
    a busy task sees its thread finish, stores the outcome in the future and
    goes round the loop.  When the future is not pending, [set_result] or
    [set_exception] raises inside the [except] clause and leaves [run].

    This is the step of a busy task once the outcome of its thread has
    reached it, which it does for every [carried] outcome; [run_step] below
    adds the case where it does not.  The effect of the call on the engine
    is applied here, when the call is seen to finish: with one live worker
    no other call runs in between. *)
Definition resume (i : nat) (w : World) : option World :=
  match tasks w !! i with
  | Some WReady => Some (loop_top i w)
  | Some (WBusy t) =>
      let '(o, d) := t_func t (t_args t) (db w) in
      match resolve (t_future t) o (futures w) with
      | Some fs =>
          Some (loop_top i {| agent := agent w; tasks := tasks w;
                              futures := fs; db := d |})
      | None =>
          Some {| agent := agent w; tasks := <[i := WFailed]> (tasks w);
                  futures := futures w; db := d |}
      end
  | _ => None
  end.

(** The step of task [i] as the event loop makes it: a busy task whose
    call raised [StopIteration] is never resumed, since
    [await asyncio.to_thread(...)] does not complete; in every other case
    the step is [resume]. *)
Definition run_step (i : nat) (w : World) : option World :=
  match tasks w !! i with
  | Some (WBusy t) =>
      if carried (t_func t (t_args t) (db w)).1 then resume i w else None
  | _ => resume i w
  end.

(** ** Interleaving layer *)

Inductive Event :=
| EvSubmit (func : Callable) (args : list Value)
| EvStart
| EvStop
| EvResume (i : nat).

Definition step (ev : Event) (w : World) : option World :=
  match ev with
  | EvSubmit func args => Some (snd (submit_world func args w))
  | EvStart => Some (start_world w)
  | EvStop => Some (stop_flag w)
  | EvResume i => resume i w
  end.

Fixpoint exec (tr : list Event) (w : World) : option World :=
  match tr with
  | [] => Some w
  | ev :: tr' =>
      match step ev w with
      | Some w' => exec tr' w'
      | None => None
      end
  end.

(** ** Sequential layer: one caller coroutine *)

Inductive res (A : Type) :=
| Ret (a : A) (w : World)
| Raise (e : Exn) (w : World)
| Hang (w : World).
Global Arguments Ret {A} a w.
Global Arguments Raise {A} e w.
Global Arguments Hang {A} w.

(** A coroutine body run by the single caller: it returns, raises, or is
    suspended on something that will never be done. *)
Definition M (A : Type) : Type := World → res A.

Global Instance M_ret : MRet M := λ A a w, Ret a w.
Global Instance M_bind : MBind M := λ A B f m w,
  match m w with
  | Ret a w' => f a w'
  | Raise e w' => Raise e w'
  | Hang w' => Hang w'
  end.

Definition raise {A} (e : Exn) : M A := λ w, Raise e w.
Definition get_running : M bool := λ w, Ret (running (agent w)) w.
Definition when (b : bool) (m : M ()) : M () := if b then m else mret ().

Definition deliver (o : outcome) : M Value :=
  match o with
  | Returned v => mret v
  | Raised e => raise e
  end.

(** Task [i] polls an empty queue of a running agent: resuming it changes
    nothing. *)
Definition spins (i : nat) (w : World) : bool :=
  match tasks w !! i with
  | Some WReady => running (agent w) && is_empty (queue (agent w))
  | _ => false
  end.

(** The caller is suspended until [done] answers; meanwhile the event loop
    resumes task [i].  A task that cannot run or only polls leaves the
    caller suspended for good.

    Only task [i] is resumed: this is the event loop of an agent whose
    worker [i] is its only live [run] task.  Worlds with several live
    workers are the matter of the interleaving layer. *)
Fixpoint run_until {A} (done : World → option (res A)) (fuel : nat)
    (i : option nat) (w : World) : res A :=
  match done w with
  | Some r => r
  | None =>
      match fuel, i with
      | S n, Some j =>
          if spins j w then Hang w
          else match resume j w with
               | Some w' => run_until done n i w'
               | None => Hang w
               end
      | _, _ => Hang w
      end
  end.

Definition future_done (f : fid) (w : World) : option (res Value) :=
  match futures w !! f with
  | Some (Some o) => Some (deliver o w)
  | _ => None
  end.

Definition task_done (i : nat) (w : World) : option (res ()) :=
  match tasks w !! i with
  | Some WExited => Some (Ret () w)
  | Some WFailed => Some (Raise InvalidStateError w)
  | _ => None
  end.

(** [await future] *)
Definition await_future (f : fid) : M Value := λ w,
  run_until (future_done f) (length (queue (agent w)) + 2) (worker (agent w)) w.

(** [future.result()] on a done future. *)
Definition future_result (f : fid) : M Value := λ w,
  match futures w !! f with
  | Some (Some o) => deliver o w
  | _ => Raise InvalidStateError w
  end.

(** [await self.worker] *)
Definition await_worker (wk : option nat) : M () := λ w,
  match wk with
  | Some i => run_until (task_done i) (length (queue (agent w)) + 2) wk w
  | None => Raise TypeError w
  end.

Definition agent_submit (func : Callable) (args : list Value) : M fid := λ w,
  let '(f, w') := submit_world func args w in Ret f w'.

Definition agent_start : M () := λ w, Ret () (start_world w).

Definition agent_stop : M () := λ w,
  if running (agent w) then await_worker (worker (agent w)) (stop_flag w)
  else Ret () w.

(** ** The facades *)

(** Both facades keep the engine handle in [_connection] and refer to the
    one agent of the world in [_agent]: a cursor shares its session's
    agent. *)
Record AsyncConnection := { conn_connection : hid }.
Record AsyncCursor := { cursor_connection : hid }.

(** What the decorators of [utils.py] expect of the class they decorate. *)
Class Facade (T : Type) := {
  connection_of : T → hid;
  execute_of : T → Callable → list Value → M Value;
}.

(** [_make_delegate_method] *)
Definition make_delegate_method {T} `{Facade T} (attr_name : string)
    (self : T) (args : list Value) : M Value :=
  execute_of self (call (connection_of self) attr_name) args.

(** [_make_proxy_method] *)
Definition make_proxy_method {T} `{Facade T} (attr_name : string)
    (self : T) (args : list Value) : M Value := λ w,
  let '(o, d) := call (connection_of self) attr_name args (db w) in
  deliver o {| agent := agent w; tasks := tasks w; futures := futures w; db := d |}.

(** [_make_proxy_property] *)
Definition make_proxy_property {T} `{Facade T} (attr_name : string)
    (self : T) : M Value := λ w,
  Ret (attr (connection_of self) attr_name (db w)) w.

(** [AsyncConnection._execute] *)
Definition conn__execute (self : AsyncConnection) (func : Callable)
    (args : list Value) : M Value :=
  r ← get_running;
  when (negb r) agent_start;;
  future ← agent_submit func args;
  await_future future;;
  future_result future.

Global Instance conn_facade : Facade AsyncConnection :=
  {| connection_of := conn_connection; execute_of := conn__execute |}.

(** [AsyncConnection.__aenter__] *)
Definition conn_aenter (self : AsyncConnection) : M AsyncConnection :=
  r ← get_running;
  when (negb r) agent_start;;
  mret self.

(** [AsyncConnection.close] *)
Definition conn_close (self : AsyncConnection) : M Value :=
  conn__execute self (call (conn_connection self) "close") [];;
  r ← get_running;
  when r agent_stop;;
  mret VNone.

(** [AsyncConnection.__aexit__]; the three arguments are not used. *)
Definition conn_aexit (self : AsyncConnection) (exc : option Exn) : M Value :=
  conn_close self;;
  r ← get_running;
  when r agent_stop;;
  mret VNone.

(** Truth value of a Python object. *)
Definition truthy (v : Value) : bool :=
  match v with
  | VNone => false
  | VInt z => negb (z =? 0)%Z
  | VStr s => negb (String.eqb s "")
  | VRows rs => match rs with [] => false | _ => true end
  | VHandle _ => true
  end.

(** A call made on a handle from the caller's own context, outside the
    queue. *)
Definition handle_call (h : hid) (name : string) (args : list Value) : M Value :=
  λ w, let '(o, d) := call h name args (db w) in
       deliver o {| agent := agent w; tasks := tasks w;
                    futures := futures w; db := d |}.

(** What may stand in [_connection]: only an engine object answers the
    calls made on it later; the model raises at once where Python would
    fail at the first use of any other value. *)
Definition as_handle (v : Value) : M AsyncCursor :=
  match v with
  | VHandle h => mret {| cursor_connection := h |}
  | _ => raise TypeError
  end.

(** [AsyncCursor.__init__]: [cursor or connection._connection.cursor()],
    the second operand being a direct call on the session's handle. *)
Definition cursor_init (connection : AsyncConnection) (cursor : Value)
  : M AsyncCursor :=
  if truthy cursor then as_handle cursor
  else derived ← handle_call (conn_connection connection) "cursor" [];
       as_handle derived.

(** [AsyncConnection.cursor] *)
Definition conn_cursor (self : AsyncConnection) : M AsyncCursor :=
  cursor ← handle_call (conn_connection self) "cursor" [];
  cursor_init self cursor.

(** [AsyncConnection.execute] and [AsyncConnection.executemany]: the value
    the engine returns is wrapped in a cursor facade. *)
Definition conn_execute (self : AsyncConnection) (query parameters : Value)
  : M AsyncCursor :=
  cursor ← conn__execute self (call (conn_connection self) "execute")
             [query; parameters];
  cursor_init self cursor.

Definition conn_executemany (self : AsyncConnection) (query parameters : Value)
  : M AsyncCursor :=
  cursor ← conn__execute self (call (conn_connection self) "executemany")
             [query; parameters];
  cursor_init self cursor.

(** The names given to [delegate_to_agent] and [proxy_property_directly]
    above [class AsyncConnection]. *)
Definition conn_delegated : list string :=
  ["begin"; "commit"; "rollback"; "checkpoint"; "load_extension";
   "create_function"; "remove_function"].
Definition conn_proxied : list string := ["rowcount"].

(** [AsyncConnection.rowcount] *)
Definition conn_rowcount (self : AsyncConnection) : M Value :=
  make_proxy_property "rowcount" self.

(** [AsyncCursor._execute] *)
Definition cursor__execute (self : AsyncCursor) (func : Callable)
    (args : list Value) : M Value :=
  future ← agent_submit func args;
  await_future future;;
  future_result future.

Global Instance cursor_facade : Facade AsyncCursor :=
  {| connection_of := cursor_connection; execute_of := cursor__execute |}.

(** The names given to [delegate_to_agent] above [class AsyncCursor]; they
    are set on the class after its body, [close] among them. *)
Definition cursor_delegated : list string :=
  ["close"; "execute"; "executemany"; "fetchall"; "fetchdf"; "fetchmany";
   "fetchnumpy"; "fetchone"; "fetch_arrow_table"; "fetch_df";
   "fetch_df_chunk"; "fetch_record_batch"; "df"; "pl"; "tf"; "torch"].

Definition cursor_close (self : AsyncCursor) : M Value :=
  make_delegate_method "close" self [].

Definition cursor_fetchmany (self : AsyncCursor) (size : Z) : M Value :=
  make_delegate_method "fetchmany" self [VInt size].

(** [AsyncCursor.__aenter__], [AsyncCursor.__aexit__] *)
Definition cursor_aenter (self : AsyncCursor) : M AsyncCursor := mret self.
Definition cursor_aexit (self : AsyncCursor) (exc : option Exn) : M Value :=
  cursor_close self;;
  mret VNone.

(** [async with mgr as x: body]: the exit hook runs on both ways out of the
    body; a false result lets the exception of the body through. *)
Definition async_with {T} (aenter : M T) (aexit : option Exn → M Value)
    (body : T → M ()) : M () := λ w,
  match aenter w with
  | Ret x w1 =>
      match body x w1 with
      | Ret _ w2 => (aexit None;; mret ()) w2
      | Raise e w2 =>
          (suppress ← aexit (Some e);
           if truthy suppress then mret () else raise e) w2
      | Hang w2 => Hang w2
      end
  | Raise e w1 => Raise e w1
  | Hang w1 => Hang w1
  end.

(** The async generator made by [AsyncCursor.__aiter__]: running with the
    rows of the current batch still to be yielded, or finished. *)
Inductive GenState :=
| GRun (batch : list Row)
| GDone.

(** An exception that leaves the body of an async generator:
    [StopIteration] and [StopAsyncIteration] come out as [RuntimeError]. *)
Definition in_generator {A} (m : M A) : M A := λ w,
  match m w with
  | Raise e w' =>
      if is_stop_iteration e || is_stop_async_iteration e
      then Raise RuntimeError w' else Raise e w'
  | r => r
  end.

(** [__anext__]: the generator runs up to its next [yield] or to its
    [return]. *)
Definition cursor_anext (self : AsyncCursor) (g : GenState)
  : M (option Row * GenState) :=
  match g with
  | GDone => mret (None, GDone)
  | GRun (row :: batch) => mret (Some row, GRun batch)
  | GRun [] =>
      in_generator
        (rows ← cursor_fetchmany self 100;
         if negb (truthy rows) then mret (None, GDone)
         else match rows with
              | VRows (row :: batch) => mret (Some row, GRun batch)
              | _ => raise TypeError
              end)
  end.

(** [[row async for row in cursor]], at most [fuel] items requested. *)
Fixpoint async_for (fuel : nat) (self : AsyncCursor) (g : GenState)
    (acc : list Row) (w : World) : option (res (list Row * GenState)) :=
  match fuel with
  | O => None
  | S n =>
      match cursor_anext self g w with
      | Ret (Some row, g') w' => async_for n self g' (acc ++ [row]) w'
      | Ret (None, g') w' => Some (Ret (acc, g') w')
      | Raise e w' => Some (Raise e w')
      | Hang w' => Some (Hang w')
      end
  end.

(** ** Predicates on worlds *)

(** Between two calls of a sequential caller that awaits what it submits:
    nothing is queued, and a running agent has its worker parked at the
    head of the loop. *)
Definition quiet (w : World) : Prop :=
  queue (agent w) = [] ∧
  (running (agent w) = true →
   ∃ i, worker (agent w) = Some i ∧ tasks w !! i = Some WReady).

Definition is_live (s : WState) : bool :=
  match s with
  | WReady | WBusy _ => true
  | WExited | WFailed => false
  end.

(** Number of [run] tasks that have not finished. *)
Fixpoint live_count (ts : list WState) : nat :=
  match ts with
  | [] => 0
  | s :: ts' => (if is_live s then 1 else 0) + live_count ts'
  end.

(** Entries dequeued by a [run] task and not yet resolved. *)
Fixpoint inflight (ts : list WState) : list Task :=
  match ts with
  | [] => []
  | WBusy t :: ts' => t :: inflight ts'
  | _ :: ts' => inflight ts'
  end.

Definition single_worker (w : World) : Prop := live_count (tasks w) ≤ 1.

(** [P] holds in every world that [tr] visits from [w]. *)
Fixpoint always (P : World → Prop) (tr : list Event) (w : World) : Prop :=
  P w ∧
  match tr with
  | [] => True
  | ev :: tr' =>
      match step ev w with
      | Some w' => always P tr' w'
      | None => True
      end
  end.

(** The futures handed out by the [submit] calls of [tr], in call order. *)
Fixpoint submitted (tr : list Event) (w : World) : list fid :=
  match tr with
  | [] => []
  | ev :: tr' =>
      match step ev w with
      | Some w' =>
          match ev with
          | EvSubmit func args => fst (submit_world func args w) :: submitted tr' w'
          | _ => submitted tr' w'
          end
      | None => []
      end
  end.

Definition resolved (w : World) (f : fid) : Prop :=
  ∃ o, futures w !! f = Some (Some o).

(** What a worker makes of a list of entries taken in order. *)
Fixpoint serve (q : list Task) (fs : list (option outcome)) (d : DB)
  : list (option outcome) * DB :=
  match q with
  | [] => (fs, d)
  | t :: q' =>
      let '(o, d') := t_func t (t_args t) d in
      serve q' (<[t_future t := Some o]> fs) d'
  end.

(** The world a quiet world turns into when one awaited submission of
    [func] has run: the agent as [start] leaves it, one more future, the
    engine after the call. *)
Definition served (func : Callable) (args : list Value) (w : World) : World :=
  {| agent := agent w; tasks := tasks w;
     futures := futures w ++ [Some (func args (db w)).1];
     db := (func args (db w)).2 |}.

(** [stop] in a quiet world with a running agent: the worker finds the flag
    down and the queue empty, and leaves the loop. *)
Definition stopped (w : World) : World :=
  match worker (agent w) with
  | Some i =>
      {| agent := set_running false (agent w);
         tasks := <[i := WExited]> (tasks w);
         futures := futures w; db := db w |}
  | None => w
  end.

(** The entries of [q] have distinct futures, all still pending in [fs]:
    what [submit] guarantees for entries not yet served. *)
Definition pending_ok (q : list Task) (fs : list (option outcome)) : Prop :=
  NoDup (t_future <$> q) ∧ ∀ t, t ∈ q → fs !! t_future t = Some None.

(** The futures resolved so far are the first [k] ever created, and the
    entries held by workers followed by the queue carry the others, oldest
    first. *)
Definition fifo_inv (w : World) : Prop :=
  ∃ k, k ≤ length (futures w)
    ∧ t_future <$> (inflight (tasks w) ++ queue (agent w))
      = seq k (length (futures w) - k)
    ∧ (∀ f, f < k → resolved w f)
    ∧ (∀ f, k ≤ f → f < length (futures w) → futures w !! f = Some None).

(** The world after one awaited [fetchmany(100)] of the cursor [k]. *)
Definition fetched (k : AsyncCursor) (w : World) : World :=
  served (call (cursor_connection k) "fetchmany") [VInt 100] w.

Definition is_stop (ev : Event) : bool :=
  match ev with EvStop => true | _ => false end.

Definition is_submit (ev : Event) : bool :=
  match ev with EvSubmit _ _ => true | _ => false end.

Definition failed (s : WState) : bool :=
  match s with WFailed => true | _ => false end.

(** What every world reached from a new agent satisfies, whatever the
    interleaving: the entries held by workers or queued have distinct
    pending futures, no [run] task has ended by an exception, and a raised
    flag comes with a live task behind [self.worker]. *)
Definition sound (w : World) : Prop :=
  pending_ok (inflight (tasks w) ++ queue (agent w)) (futures w)
  ∧ Forall (λ s, failed s = false) (tasks w)
  ∧ (running (agent w) = true →
     ∃ i s, worker (agent w) = Some i ∧ tasks w !! i = Some s
            ∧ is_live s = true).

(** Every pending future belongs to an entry that a worker holds or that
    is queued. *)
Definition tracked (w : World) : Prop :=
  ∀ f, futures w !! f = Some None →
       f ∈ t_future <$> (inflight (tasks w) ++ queue (agent w)).

(** The world in which a coroutine returned, raised or stays suspended. *)
Definition final {A} (r : res A) : World :=
  match r with
  | Ret _ w | Raise _ w | Hang w => w
  end.

(** Each entry of [q], run in order from the engine state [d], has an
    outcome that a future can carry. *)
Fixpoint deliverable (q : list Task) (d : DB) : Prop :=
  match q with
  | [] => True
  | t :: q' =>
      carried (t_func t (t_args t) d).1 = true
      ∧ deliverable q' (t_func t (t_args t) d).2
  end.

(** The flag bounds the live workers. *)
Definition guarded (w : World) : Prop :=
  live_count (tasks w) ≤ (if running (agent w) then 1 else 0).

(** The engine state replaced, the agent and its futures kept: what a
    call made outside the queue does to a world. *)
Definition set_db (d : DB) (w : World) : World :=
  {| agent := agent w; tasks := tasks w; futures := futures w; db := d |}.

(** The world a coroutine left, unless it is still suspended. *)
Definition world_of {A} (r : res A) : option World :=
  match r with
  | Ret _ w | Raise _ w => Some w
  | Hang _ => None
  end.

(** The agent, its tasks and its futures are those of [w]. *)
Definition same_agent (w w' : World) : Prop :=
  agent w' = agent w ∧ tasks w' = tasks w ∧ futures w' = futures w.

(** The agent has no task that the event loop could resume. *)
Definition no_worker (w : World) : Prop :=
  ∀ i, worker (agent w) = Some i → tasks w !! i = Some WExited.

(** How a scoped body ended, with the world it left. *)
Definition ended (exc : option Exn) (w : World) : res () :=
  match exc with
  | None => Ret () w
  | Some e => Raise e w
  end.

End Bridge.

(** ** The class decorators of [utils.py] *)

(** What a name of a class is bound to: a function of the class body, or
    what [_make_delegate_method], [_make_proxy_method] or
    [_make_proxy_property] returns for an attribute name. *)
Inductive Attr :=
| ABody (name : string)
| ADelegate (attr_name : string)
| AProxyMethod (attr_name : string)
| AProxyProperty (attr_name : string).

(** The namespace of a class, and [setattr] on it. *)
Abbreviation Class := (gmap string Attr).

Definition setattr (cls : Class) (name : string) (a : Attr) : Class :=
  <[name := a]> cls.

(** [delegate_to_agent], [proxy_method_directly] and
    [proxy_property_directly], each applied to its names and then to the
    class. *)
Definition delegate_to_agent (attrs : list string) (cls : Class) : Class :=
  foldl (λ c attr_name, setattr c attr_name (ADelegate attr_name)) cls attrs.

Definition proxy_method_directly (attrs : list string) (cls : Class) : Class :=
  foldl (λ c attr_name, setattr c attr_name (AProxyMethod attr_name)) cls attrs.

Definition proxy_property_directly (attrs : list string) (cls : Class) : Class :=
  foldl (λ c attr_name, setattr c attr_name (AProxyProperty attr_name)) cls attrs.

(** A class statement: the functions of the body, then the decorators from
    the innermost outwards. *)
Definition class_body (names : list string) : Class :=
  foldl (λ c name, setattr c name (ABody name)) ∅ names.

Definition AsyncConnection_class : Class :=
  delegate_to_agent conn_delegated
    (proxy_property_directly conn_proxied
       (class_body ["__init__"; "__aenter__"; "__aexit__"; "_execute";
                    "cursor"; "close"; "execute"; "executemany"])).

Definition AsyncCursor_class : Class :=
  delegate_to_agent cursor_delegated
    (class_body ["__init__"; "__aenter__"; "__aexit__"; "__aiter__";
                 "_execute"]).

(** ** An engine for examples

    One connection with a result set, a close call that fails on demand,
    and a row count. *)
Record MockDB := {
  m_rows : list Row;
  m_closed : bool;
  m_close_fails : bool;
  m_rowcount : Z;
}.

Definition IOException : Exn :=
  {| exn_name := "IOException"; exn_is_exception := true |}.

Definition KeyboardInterrupt : Exn :=
  {| exn_name := "KeyboardInterrupt"; exn_is_exception := false |}.

Definition mock_call (h : hid) (name : string) (args : list Value) (d : MockDB)
  : outcome * MockDB :=
  if String.eqb name "fetchmany" then
    match args with
    | [VInt n] =>
        (Returned (VRows (take (Z.to_nat n) (m_rows d))),
         {| m_rows := drop (Z.to_nat n) (m_rows d); m_closed := m_closed d;
            m_close_fails := m_close_fails d; m_rowcount := m_rowcount d |})
    | _ => (Raised TypeError, d)
    end
  else if String.eqb name "close" then
    if m_close_fails d then (Raised IOException, d)
    else (Returned VNone,
          {| m_rows := m_rows d; m_closed := true;
             m_close_fails := m_close_fails d; m_rowcount := m_rowcount d |})
  else if String.eqb name "interrupt" then (Raised KeyboardInterrupt, d)
  else (Returned VNone, d).

Definition mock_attr (h : hid) (name : string) (d : MockDB) : Value :=
  if String.eqb name "rowcount" then VInt (m_rowcount d) else VNone.

Definition mock : Engine :=
  {| DB := MockDB; call := mock_call; attr := mock_attr |}.

Definition mock_db (rows : list Row) (close_fails : bool) : MockDB :=
  {| m_rows := rows; m_closed := false; m_close_fails := close_fails;
     m_rowcount := (-1)%Z |}.

#[local] Existing Instance mock.

Definition demo_conn : AsyncConnection := {| conn_connection := 0 |}.
Definition demo_cursor : AsyncCursor := {| cursor_connection := 1 |}.

(** 250 one-column rows. *)
Definition demo_rows : list Row := (λ i, [Z.of_nat i]) <$> seq 0 250.

(** A new session on an empty result set. *)
Definition demo_new : World := fresh (E:=mock) (mock_db [] false).

(** A started agent with two calls submitted and not awaited. *)
Definition demo_queued : World :=
  (submit_world (call 0 "commit") []
     (submit_world (call 0 "interrupt") []
        (start_world demo_new)).2).2.

(** The same after the worker has taken the first entry. *)
Definition demo_busy : World :=
  default demo_queued (resume 0 demo_queued).

(** The same after the worker has run that entry, and what the callers
    do next. *)
Definition demo_served : World :=
  default demo_busy (resume 0 demo_busy).

Definition demo_later : list Event :=
  [EvSubmit (call 0 "commit") []; EvResume 0; EvResume 0; EvStop; EvStart;
   EvResume 0; EvResume 1].

(** Callers that never stop the agent: a second start, submissions and
    resumptions of the worker. *)
Definition demo_unstopped : list Event :=
  [EvSubmit (call 0 "commit") []; EvStart; EvSubmit (call 0 "interrupt") [];
   EvResume 0; EvStart; EvResume 0; EvSubmit (call 0 "commit") [];
   EvResume 0].

(** A trace with two submitters around the start and the resumptions of
    worker 0. *)
Definition demo_trace : list Event :=
  [EvSubmit (call 0 "commit") []; EvStart; EvResume 0;
   EvSubmit (call 0 "interrupt") []; EvResume 0; EvStop; EvResume 0].

(** [start] fired by a second caller between the flag flip of [stop] and
    the exit of the worker that is still serving an entry. *)
Definition demo_restart : list Event :=
  [EvStart; EvSubmit (call 0 "interrupt") []; EvSubmit (call 0 "commit") [];
   EvResume 0; EvStop; EvStart; EvResume 1; EvResume 1].

(** A worker that holds an entry, a [stop] that waits for it, a second
    [start], and one more submission; then the schedule of a second
    [stop]. *)
Definition demo_overlap : list Event :=
  [EvStart; EvSubmit (call 0 "commit") []; EvResume 0; EvStop; EvStart;
   EvSubmit (call 0 "commit") []].

Definition demo_stop : list Event := [EvStop; EvResume 0; EvResume 1].

(** A started agent with a [fetchmany(100)] of another caller queued and
    not yet taken by the worker. *)
Definition demo_behind : World :=
  (submit_world (call 1 "fetchmany") [VInt 100]
     (start_world (fresh (E:=mock) (mock_db demo_rows false)))).2.

(** A started agent on a result set of 200 rows. *)
Definition demo_even : World :=
  start_world (fresh (E:=mock) (mock_db (take 200 demo_rows) false)).

(** ** A scripted engine

    The engine state is the list of the outcomes of its next calls. *)
Definition script_call (h : hid) (name : string) (args : list Value)
    (d : list outcome) : outcome * list outcome :=
  match d with
  | [] => (Returned VNone, [])
  | o :: d' => (o, d')
  end.

Definition scripted : Engine :=
  {| DB := list outcome; call := script_call; attr := λ _ _ _, VNone |}.

(** A new session whose first engine call returns the handle 7, and a
    started one whose first engine call raises [StopAsyncIteration]. *)
Definition demo_handle : @World scripted :=
  fresh (E:=scripted) [Returned (VHandle 7)].

(** A worker that holds an entry whose call raises [StopIteration]. *)
Definition demo_stuck : @World scripted :=
  default (fresh (E:=scripted) [])
    (exec [EvStart; EvSubmit (call (Engine:=scripted) 0 "fetchone") [];
           EvResume 0]
       (fresh (E:=scripted) [Raised StopIteration])).

Definition demo_broken : @World scripted :=
  start_world (fresh (E:=scripted) [Raised StopAsyncIteration]).

(** * Properties *)

Section Proofs.
Context {E : Engine}.
Implicit Types (w : World) (func : Callable) (args : list Value).

Lemma run_until_done {A} (done : World → option (res A)) fuel i w r :
  done w = Some r → run_until done fuel i w = r.
Proof. intros H. destruct fuel; simpl; by rewrite H. Qed.

Lemma run_until_step {A} (done : World → option (res A)) fuel j w w' :
  done w = None → spins j w = false → resume j w = Some w' →
  run_until done (S fuel) (Some j) w = run_until done fuel (Some j) w'.
Proof. intros H1 H2 H3. simpl. by rewrite H1, H2, H3. Qed.

Lemma run_until_0 {A} (done : World → option (res A)) i w :
  run_until done 0 i w = match done w with Some r => r | None => Hang w end.
Proof. done. Qed.

Lemma run_until_S {A} (done : World → option (res A)) n i w :
  run_until done (S n) i w =
  match done w with
  | Some r => r
  | None =>
      match i with
      | Some j =>
          if spins j w then Hang w
          else match resume j w with
               | Some w' => run_until done n i w'
               | None => Hang w
               end
      | None => Hang w
      end
  end.
Proof. done. Qed.

Local Arguments run_until : simpl never.

(** A submission awaited in a quiet world with a running agent: two
    resumptions of the worker, the first takes the entry, the second stores
    the outcome. *)
Lemma submit_await_quiet func args w i :
  queue (agent w) = [] → running (agent w) = true →
  worker (agent w) = Some i → tasks w !! i = Some WReady →
  (future ← agent_submit func args; await_future future;; future_result future) w
  = deliver (func args (db w)).1
      {| agent := agent w; tasks := tasks w;
         futures := futures w ++ [Some (func args (db w)).1];
         db := (func args (db w)).2 |}.
Proof.
  destruct w as [[wk r q] ts fs d]; simpl. intros -> -> -> Hi.
  assert (Hlt : i < length ts) by (by eapply lookup_lt_Some).
  unfold mbind, M_bind, agent_submit, submit_world, await_future, set_queue; simpl.
  set (tf := {| t_future := length fs; t_func := func; t_args := args |}).
  assert (Hf : (fs ++ [None]) !! length fs = Some (@None outcome)).
  { by rewrite list_lookup_middle. }
  rewrite (run_until_step _ _ i _
    {| agent := {| worker := Some i; running := true; queue := [] |};
       tasks := <[i := WBusy tf]> ts; futures := fs ++ [None]; db := d |}).
  2: { unfold future_done; simpl. by rewrite Hf. }
  2: { unfold spins; simpl. by rewrite Hi. }
  2: { unfold resume; simpl. by rewrite Hi. }
  destruct (func args d) as [o d'] eqn:Hcall.
  rewrite (run_until_step _ _ i _
    {| agent := {| worker := Some i; running := true; queue := [] |};
       tasks := ts; futures := fs ++ [Some o]; db := d' |}).
  2: { unfold future_done; simpl. by rewrite Hf. }
  2: { unfold spins; simpl. by rewrite list_lookup_insert_eq. }
  2: { unfold resume, resolve; simpl. rewrite list_lookup_insert_eq by done.
       simpl. rewrite Hcall, Hf. unfold loop_top, set_task; simpl.
       rewrite list_insert_insert_eq, (list_insert_id ts i WReady) by done.
       replace (length fs) with (length fs + 0) at 1 by lia.
       by rewrite insert_app_r. }
  assert (Hf' : (fs ++ [Some o]) !! length fs = Some (Some o)).
  { by rewrite list_lookup_middle. }
  rewrite (run_until_done _ _ _ _ (deliver o
    {| agent := {| worker := Some i; running := true; queue := [] |};
       tasks := ts; futures := fs ++ [Some o]; db := d' |})).
  2: { unfold future_done; simpl. by rewrite Hf'. }
  unfold future_result. destruct o; simpl; [by rewrite Hf' | done].
Qed.

Lemma start_world_running w :
  running (agent w) = true → start_world w = w.
Proof. intros H. unfold start_world. by rewrite H. Qed.

Lemma start_world_quiet w :
  quiet w → quiet (start_world w) ∧ running (agent (start_world w)) = true.
Proof.
  intros [Hq Hr]. unfold start_world.
  destruct (running (agent w)) eqn:Hrun; simpl.
  { split; [split; [done|]|done]. intros _. by apply Hr. }
  split; [split|]; simpl; try done.
  intros _. exists (length (tasks w)). split; [done|].
  by rewrite list_lookup_middle.
Qed.

Lemma served_quiet func args w :
  quiet w → quiet (served func args w).
Proof. intros [Hq Hr]. split; simpl; done. Qed.

Lemma conn__execute_quiet (self : AsyncConnection) func args w :
  quiet w →
  conn__execute self func args w
  = deliver (func args (db w)).1 (served func args (start_world w)).
Proof.
  intros Hq. destruct (start_world_quiet w Hq) as [[Hq' Hr'] Hrun'].
  destruct (Hr' Hrun') as (i & Hi & Hti).
  pose proof (submit_await_quiet func args (start_world w) i Hq' Hrun' Hi Hti) as Hs.
  assert (Hdb : db (start_world w) = db w).
  { unfold start_world. by destruct (running (agent w)). }
  unfold served. rewrite <- Hdb at 1.
  unfold conn__execute, get_running, when.
  unfold mbind at 1, M_bind at 1.
  destruct (running (agent w)) eqn:Hrun; simpl negb; cbv iota.
  - rewrite start_world_running in * by done.
    unfold mbind at 1, M_bind at 1. unfold mret at 1, M_ret at 1. exact Hs.
  - unfold mbind at 1, M_bind at 1. unfold agent_start at 1. exact Hs.
Qed.

Lemma cursor__execute_quiet (self : AsyncCursor) func args w :
  quiet w → running (agent w) = true →
  cursor__execute self func args w
  = deliver (func args (db w)).1 (served func args w).
Proof.
  intros [Hq Hr] Hrun. destruct (Hr Hrun) as (i & Hi & Hti).
  exact (submit_await_quiet func args w i Hq Hrun Hi Hti).
Qed.

Lemma agent_stop_quiet w :
  quiet w → running (agent w) = true →
  agent_stop w = Ret () (stopped w).
Proof.
  intros [Hq Hr] Hrun. destruct (Hr Hrun) as (i & Hi & Hti).
  assert (Hlt : i < length (tasks w)) by (by eapply lookup_lt_Some).
  destruct w as [[wk r q] ts fs d]; simpl in *; subst.
  unfold agent_stop, stopped, stop_flag, await_worker; simpl.
  rewrite (run_until_step _ _ i _
    {| agent := {| worker := Some i; running := false; queue := [] |};
       tasks := <[i := WExited]> ts; futures := fs; db := d |}).
  2: { unfold task_done; simpl. by rewrite Hti. }
  2: { unfold spins; simpl. by rewrite Hti. }
  2: { unfold resume; simpl. by rewrite Hti. }
  apply run_until_done. unfold task_done; simpl.
  by rewrite list_lookup_insert_eq.
Qed.

Lemma stopped_quiet w : quiet w → quiet (stopped w).
Proof.
  intros Hq. unfold stopped. destruct (worker (agent w)); [|done].
  destruct Hq as [Hq Hr]. split; simpl; done.
Qed.

Lemma stopped_running w :
  quiet w → running (agent w) = true → running (agent (stopped w)) = false.
Proof.
  intros [Hq Hr] Hrun. destruct (Hr Hrun) as (i & Hi & _).
  unfold stopped. by rewrite Hi.
Qed.

(** [AsyncConnection.close] in a quiet world, by the outcome of the close
    call of the handle. *)
Lemma conn_close_quiet (self : AsyncConnection) w :
  quiet w →
  conn_close self w =
  match (call (conn_connection self) "close" [] (db w)).1 with
  | Returned _ =>
      Ret VNone (stopped (served (call (conn_connection self) "close") []
                            (start_world w)))
  | Raised e =>
      Raise e (served (call (conn_connection self) "close") [] (start_world w))
  end.
Proof.
  intros Hq. unfold conn_close.
  unfold mbind at 1, M_bind at 1. rewrite conn__execute_quiet by done.
  destruct (start_world_quiet w Hq) as [Hq' Hrun'].
  pose proof (served_quiet (call (conn_connection self) "close") [] _ Hq') as Hq''.
  destruct (call (conn_connection self) "close" [] (db w)).1 eqn:Hc; simpl; [|done].
  unfold mbind, M_bind, get_running; simpl. rewrite Hrun'. simpl.
  rewrite agent_stop_quiet; [done|done|done].
Qed.

(** ** Start and stop *)

Lemma loop_top_running i w : running (agent (loop_top i w)) = running (agent w).
Proof.
  unfold loop_top.
  destruct (negb (running (agent w)) && is_empty (queue (agent w))); [done|].
  destruct (running (agent w) && is_empty (queue (agent w))); [done|].
  by destruct (queue (agent w)).
Qed.

Lemma resume_running j w w' :
  resume j w = Some w' → running (agent w') = running (agent w).
Proof.
  unfold resume. destruct (tasks w !! j) as [[|t| |]|]; try done.
  - intros [= <-]. apply loop_top_running.
  - destruct (t_func t (t_args t) (db w)) as [o d].
    destruct (resolve (t_future t) o (futures w)); intros [= <-]; [|done].
    by rewrite loop_top_running.
Qed.

Lemma run_until_task_running fuel j i w a w1 :
  run_until (task_done j) fuel i w = Ret a w1 →
  running (agent w1) = running (agent w).
Proof.
  revert w. induction fuel as [|n IH]; intros w.
  - rewrite run_until_0.
    unfold task_done. destruct (tasks w !! j) as [[| | |]|]; try done.
    by intros [= _ <-].
  - rewrite run_until_S. unfold task_done at 1. destruct (tasks w !! j) as [[| | |]|] eqn:Hj;
      try (by intros [= _ <-]); try done;
      destruct i as [k|]; try done;
      destruct (spins k w); try done;
      destruct (resume k w) as [w'|] eqn:Hres; try done;
      intros H; rewrite (IH _ H); by eapply resume_running.
Qed.

Lemma agent_stop_not_running w w1 :
  agent_stop w = Ret () w1 → running (agent w1) = false.
Proof.
  unfold agent_stop. destruct (running (agent w)) eqn:Hrun.
  - unfold await_worker, stop_flag. rewrite Hrun.
    destruct (worker (agent w)); [|done].
    intros H. by rewrite (run_until_task_running _ _ _ _ _ _ H).
  - by intros [= <-].
Qed.

(** C8: [start] on a running agent changes nothing, [start; start] is
    [start] and adds no second worker; [stop] on an agent that is not running
    changes nothing, and [stop; stop] is [stop]. *)
Theorem start_stop_idempotent w1 w2 :
  running (agent w1) = true →
  running (agent w2) = false →
  agent_start w1 = Ret () w1
  ∧ agent_stop w2 = Ret () w2
  ∧ (∀ w, (agent_start;; agent_start) w = agent_start w
          ∧ tasks (start_world (start_world w)) = tasks (start_world w)
          ∧ worker (agent (start_world (start_world w)))
            = worker (agent (start_world w)))
  ∧ (∀ w, (agent_stop;; agent_stop) w = agent_stop w).
Proof.
  intros H1 H2. split; [|split; [|split]].
  - unfold agent_start. by rewrite start_world_running.
  - unfold agent_stop. by rewrite H2.
  - intros w.
    assert (Hss : start_world (start_world w) = start_world w).
    { apply start_world_running. unfold start_world.
      by destruct (running (agent w)) eqn:Hr. }
    unfold mbind, M_bind, agent_start. by rewrite Hss.
  - intros w. unfold mbind, M_bind.
    destruct (agent_stop w) as [[] w'| |] eqn:Hs; try done.
    pose proof (agent_stop_not_running _ _ Hs) as Hr.
    unfold agent_stop at 1. by rewrite Hr.
Qed.

(** ** The row-count property *)

(** C9: reading [rowcount] returns the attribute of the handle and hands
    back the world it was given: agent, tasks, futures and engine state are
    the same, whatever the worker is doing. *)
Theorem rowcount_reads_directly (self : AsyncConnection) w :
  ∃ w', conn_rowcount self w
        = Ret (attr (conn_connection self) "rowcount" (db w)) w'
    ∧ agent w' = agent w ∧ tasks w' = tasks w
    ∧ futures w' = futures w ∧ db w' = db w
    ∧ "rowcount" ∈ conn_proxied ∧ "rowcount" ∉ conn_delegated.
Proof.
  exists w. repeat split; try done.
  - unfold conn_proxied. apply list_elem_of_here.
  - unfold conn_delegated. intros H.
    repeat (apply elem_of_cons in H as [H|H]; [done|]).
    by apply elem_of_nil in H.
Qed.

(** ** Failures of submitted calls *)

Lemma loop_top_lookup i w :
  i < length (tasks w) →
  tasks (loop_top i w) !! i =
  Some match queue (agent w) with
       | [] => if running (agent w) then WReady else WExited
       | t :: _ => WBusy t
       end.
Proof.
  intros Hlt. unfold loop_top.
  destruct (running (agent w)), (queue (agent w)); simpl;
    by rewrite list_lookup_insert_eq.
Qed.

Lemma loop_top_futures i w : futures (loop_top i w) = futures w.
Proof.
  unfold loop_top.
  destruct (running (agent w)), (queue (agent w)); done.
Qed.

Lemma served_running func args w :
  running (agent (served func args w)) = running (agent w).
Proof. done. Qed.


(** ** Calls on an agent that is not running *)

Lemma cursor__execute_no_worker (self : AsyncCursor) func args w :
  no_worker w →
  cursor__execute self func args w = Hang (submit_world func args w).2.
Proof.
  intros Hn. unfold cursor__execute, agent_submit, submit_world, await_future.
  unfold mbind, M_bind; simpl.
  rewrite length_app; simpl.
  replace (length (queue (agent w)) + 1 + 2)
    with (S (length (queue (agent w)) + 2)) by lia.
  rewrite run_until_S. unfold future_done; simpl.
  rewrite list_lookup_middle by done.
  destruct (worker (agent w)) as [i|] eqn:Hw; [|done].
  unfold spins, resume; simpl. by rewrite (Hn i Hw).
Qed.

(** C4: on an agent that was never started, a forwarded call on the session
    starts the agent and its future is resolved; the same call on a cursor is
    queued with no worker to take it, and the caller stays suspended. *)
Theorem cursor_call_on_unstarted_agent_hangs (c : AsyncConnection)
    (k : AsyncCursor) name args d :
  let wk := (submit_world (call (cursor_connection k) name) args (fresh d)).2 in
  let wc := served (call (conn_connection c) name) args (start_world (fresh d)) in
  make_delegate_method name c args (fresh d)
  = deliver (call (conn_connection c) name args d).1 wc
  ∧ running (agent wc) = true
  ∧ (∃ o, futures wc !! 0 = Some (Some o))
  ∧ make_delegate_method name k args (fresh d) = Hang wk
  ∧ running (agent wk) = false
  ∧ tasks wk = []
  ∧ length (queue (agent wk)) = 1
  ∧ futures wk !! 0 = Some None
  ∧ ∀ i, resume i wk = None.
Proof.
  assert (Hq : quiet (fresh d)) by (by split).
  simpl. split; [|split; [done|split; [by eexists|]]].
  { unfold make_delegate_method; simpl. by rewrite conn__execute_quiet. }
  split; [|done].
  unfold make_delegate_method; simpl.
  by rewrite cursor__execute_no_worker.
Qed.

(** ** Closing a session *)

Lemma conn_aexit_quiet (self : AsyncConnection) exc w v :
  quiet w →
  (call (conn_connection self) "close" [] (db w)).1 = Returned v →
  conn_aexit self exc w
  = Ret VNone (stopped (served (call (conn_connection self) "close") []
                          (start_world w))).
Proof.
  intros Hq Hc. unfold conn_aexit. unfold mbind at 1, M_bind at 1.
  rewrite conn_close_quiet, Hc by done.
  destruct (start_world_quiet w Hq) as [Hq' Hrun'].
  unfold mbind, M_bind, get_running; simpl.
  rewrite stopped_running; [done| by apply served_quiet | done].
Qed.


Lemma start_world_fields w :
  futures (start_world w) = futures w ∧ db (start_world w) = db w
  ∧ queue (agent (start_world w)) = queue (agent w).
Proof. unfold start_world. by destruct (running (agent w)). Qed.


(** ** Scoped use *)


(** ** Draining on stop *)

Lemma pending_ok_tail t q fs o :
  pending_ok (t :: q) fs → pending_ok q (<[t_future t := Some o]> fs).
Proof.
  intros [Hnd Hp]. rewrite fmap_cons in Hnd.
  apply NoDup_cons in Hnd as [Hnin Hnd]. split; [done|].
  intros t' Ht'. rewrite list_lookup_insert_ne.
  - apply Hp. by apply elem_of_cons; right.
  - intros Heq. apply Hnin. rewrite Heq. by apply list_elem_of_fmap_2.
Qed.

Lemma serve_lookup_other q fs d f :
  f ∉ t_future <$> q → (serve q fs d).1 !! f = fs !! f.
Proof.
  revert fs d. induction q as [|t q IH]; intros fs d Hnin; [done|].
  simpl. destruct (t_func t (t_args t) d) as [o d'].
  rewrite fmap_cons in Hnin. apply not_elem_of_cons in Hnin as [Hne Hnin].
  rewrite IH by done. by rewrite list_lookup_insert_ne.
Qed.

Lemma serve_resolved q fs d t :
  pending_ok q fs → t ∈ q →
  ∃ o, (serve q fs d).1 !! t_future t = Some (Some o).
Proof.
  revert fs d. induction q as [|t0 q IH]; intros fs d Hok Ht.
  { by apply elem_of_nil in Ht. }
  simpl. destruct (t_func t0 (t_args t0) d) as [o d'] eqn:Hcall.
  apply elem_of_cons in Ht as [->|Ht].
  - destruct Hok as [Hnd Hp]. rewrite fmap_cons in Hnd.
    apply NoDup_cons in Hnd as [Hnin _].
    exists o. rewrite serve_lookup_other by done.
    apply list_lookup_insert_eq. eapply lookup_lt_Some, Hp.
    by apply elem_of_cons; left.
  - apply IH; [by apply pending_ok_tail|done].
Qed.

Lemma drain_busy q : ∀ t ts fs d i wk fuel,
  ts !! i = Some (WBusy t) →
  pending_ok (t :: q) fs →
  length q + 1 ≤ fuel →
  run_until (task_done i) fuel (Some i)
    {| agent := {| worker := wk; running := false; queue := q |};
       tasks := ts; futures := fs; db := d |}
  = Ret () {| agent := {| worker := wk; running := false; queue := [] |};
              tasks := <[i := WExited]> ts;
              futures := (serve (t :: q) fs d).1;
              db := (serve (t :: q) fs d).2 |}.
Proof.
  induction q as [|t' q IH]; intros t ts fs d i wk fuel Hi Hok Hfuel;
    (destruct fuel as [|n]; [simpl in Hfuel; lia|]);
    assert (Hlt : i < length ts) by (by eapply lookup_lt_Some);
    assert (Hf : fs !! t_future t = Some None)
      by (apply Hok; by apply elem_of_cons; left);
    simpl serve; destruct (t_func t (t_args t) d) as [o d'] eqn:Hcall.
  - rewrite (run_until_step _ _ i _
      {| agent := {| worker := wk; running := false; queue := [] |};
         tasks := <[i := WExited]> ts;
         futures := <[t_future t := Some o]> fs; db := d' |}).
    + apply run_until_done. unfold task_done; simpl.
      by rewrite list_lookup_insert_eq.
    + unfold task_done; simpl. by rewrite Hi.
    + unfold spins; simpl. by rewrite Hi.
    + unfold resume, resolve; simpl. by rewrite Hi, Hcall, Hf.
  - rewrite (run_until_step _ _ i _
      {| agent := {| worker := wk; running := false; queue := q |};
         tasks := <[i := WBusy t']> ts;
         futures := <[t_future t := Some o]> fs; db := d' |}).
    + rewrite (IH t' (<[i := WBusy t']> ts)).
      * by rewrite list_insert_insert_eq.
      * by apply list_lookup_insert_eq.
      * by apply pending_ok_tail.
      * simpl in Hfuel. lia.
    + unfold task_done; simpl. by rewrite Hi.
    + unfold spins; simpl. by rewrite Hi.
    + unfold resume, resolve; simpl. by rewrite Hi, Hcall, Hf.
Qed.

Lemma drain_ready q ts fs d i wk fuel :
  ts !! i = Some WReady →
  pending_ok q fs →
  length q + 2 ≤ fuel →
  run_until (task_done i) fuel (Some i)
    {| agent := {| worker := wk; running := false; queue := q |};
       tasks := ts; futures := fs; db := d |}
  = Ret () {| agent := {| worker := wk; running := false; queue := [] |};
              tasks := <[i := WExited]> ts;
              futures := (serve q fs d).1;
              db := (serve q fs d).2 |}.
Proof.
  intros Hi Hok Hfuel. destruct fuel as [|n]; [lia|].
  assert (Hlt : i < length ts) by (by eapply lookup_lt_Some).
  destruct q as [|t q].
  - rewrite (run_until_step _ _ i _
      {| agent := {| worker := wk; running := false; queue := [] |};
         tasks := <[i := WExited]> ts; futures := fs; db := d |}).
    + apply run_until_done. unfold task_done; simpl.
      by rewrite list_lookup_insert_eq.
    + unfold task_done; simpl. by rewrite Hi.
    + unfold spins; simpl. by rewrite Hi.
    + unfold resume; simpl. by rewrite Hi.
  - rewrite (run_until_step _ _ i _
      {| agent := {| worker := wk; running := false; queue := q |};
         tasks := <[i := WBusy t]> ts; futures := fs; db := d |}).
    + rewrite (drain_busy q t (<[i := WBusy t]> ts)).
      * by rewrite list_insert_insert_eq.
      * by apply list_lookup_insert_eq.
      * done.
      * simpl in Hfuel. lia.
    + unfold task_done; simpl. by rewrite Hi.
    + unfold spins; simpl. by rewrite Hi.
    + unfold resume; simpl. by rewrite Hi.
Qed.

Lemma resume_exit_only j u u' :
  resume j u = Some u' → tasks u' !! j = Some WExited →
  running (agent u) = false ∧ queue (agent u) = [].
Proof.
  unfold resume. destruct (tasks u !! j) as [[|t| |]|] eqn:Hj; try done.
  - assert (Hlt : j < length (tasks u)) by (by eapply lookup_lt_Some).
    intros [= <-]. rewrite loop_top_lookup by done.
    destruct (queue (agent u)), (running (agent u)); by intros [=].
  - assert (Hlt : j < length (tasks u)) by (by eapply lookup_lt_Some).
    destruct (t_func t (t_args t) (db u)) as [o d].
    destruct (resolve (t_future t) o (futures u)); intros [= <-]; simpl.
    + rewrite loop_top_lookup by done. simpl.
      destruct (queue (agent u)), (running (agent u)); by intros [=].
    + by rewrite list_lookup_insert_eq.
Qed.

(** ** First in, first out *)

Lemma live_count_app ts1 ts2 :
  live_count (ts1 ++ ts2) = live_count ts1 + live_count ts2.
Proof. induction ts1 as [|s ts1 IH]; simpl; [done|]. rewrite IH. lia. Qed.

Lemma inflight_app ts1 ts2 :
  inflight (ts1 ++ ts2) = inflight ts1 ++ inflight ts2.
Proof.
  induction ts1 as [|s ts1 IH]; simpl; [done|].
  destruct s; simpl; by rewrite IH.
Qed.

Lemma live_count_0_inflight ts : live_count ts = 0 → inflight ts = [].
Proof.
  induction ts as [|s ts IH]; simpl; [done|].
  destruct s; simpl; intros H; try lia; by apply IH.
Qed.

(** With at most one live worker, the entries in flight are those of that
    worker. *)
Lemma single_split ts i s :
  live_count ts ≤ 1 → ts !! i = Some s → is_live s = true →
  inflight ts = inflight [s] ∧ ∀ s', inflight (<[i := s']> ts) = inflight [s'].
Proof.
  intros Hl Hi Hs.
  assert (Hlt : i < length ts) by (by eapply lookup_lt_Some).
  pose proof (take_drop_middle ts i s Hi) as Hsplit.
  assert (Hc : live_count (take i ts) = 0 ∧ live_count (drop (S i) ts) = 0).
  { rewrite <- Hsplit in Hl. rewrite live_count_app in Hl. simpl in Hl.
    rewrite Hs in Hl. lia. }
  destruct Hc as [H1 H2].
  apply live_count_0_inflight in H1, H2.
  assert (Hgen : ∀ s', inflight (take i ts ++ s' :: drop (S i) ts) = inflight [s']).
  { intros s'. rewrite inflight_app, H1.
    destruct s'; simpl; by rewrite H2. }
  split.
  - rewrite <- Hsplit at 1. apply Hgen.
  - intros s'. rewrite insert_take_drop by done. apply Hgen.
Qed.

Lemma loop_top_pending i w :
  (∀ s', inflight (<[i := s']> (tasks w)) = inflight [s']) →
  inflight (tasks (loop_top i w)) ++ queue (agent (loop_top i w))
  = queue (agent w).
Proof.
  intros H. unfold loop_top.
  destruct (running (agent w)), (queue (agent w)) eqn:Hq; simpl;
    rewrite H, ?Hq; done.
Qed.

Lemma fifo_inv_step ev w w' :
  fifo_inv w → single_worker w → step ev w = Some w' → fifo_inv w'.
Proof.
  intros (k & Hk & Hp & Hres & Hpen) Hsw Hstep.
  destruct ev as [func args| | |i]; simpl in Hstep.
  - injection Hstep as <-. exists k. simpl. rewrite length_app. simpl.
    split; [lia|]. split; [|split].
    + rewrite app_assoc, fmap_app, Hp. simpl.
      replace (length (futures w) + 1 - k) with (S (length (futures w) - k)) by lia.
      rewrite seq_S. do 2 f_equal. lia.
    + intros f Hf. destruct (Hres f Hf) as [o Ho]. exists o. simpl.
      rewrite lookup_app_l; [done|by eapply lookup_lt_Some].
    + intros f Hf1 Hf2.
      destruct (decide (f = length (futures w))) as [->|Hne].
      * by rewrite list_lookup_middle.
      * rewrite lookup_app_l by lia. apply Hpen; lia.
  - injection Hstep as <-. unfold start_world.
    destruct (running (agent w)); simpl; [by exists k|].
    exists k. simpl. rewrite inflight_app. simpl. rewrite app_nil_r. done.
  - injection Hstep as <-. unfold stop_flag.
    destruct (running (agent w)); by exists k.
  - unfold resume in Hstep.
    destruct (tasks w !! i) as [[|t| |]|] eqn:Hi; try done.
    + injection Hstep as <-.
      destruct (single_split _ _ _ Hsw Hi eq_refl) as [Hin Hup].
      exists k. rewrite loop_top_futures, loop_top_pending by done.
      rewrite Hin in Hp. simpl in Hp.
      split; [done|]. split; [done|]. split; [|done].
      intros f Hf. destruct (Hres f Hf) as [o Ho]. exists o.
      by rewrite loop_top_futures.
    + destruct (single_split _ _ _ Hsw Hi eq_refl) as [Hin Hup].
      rewrite Hin in Hp. simpl in Hp.
      destruct (length (futures w) - k) as [|m] eqn:Hm; [done|].
      simpl in Hp. injection Hp as Hft Hq.
      assert (Hfk : futures w !! k = Some None) by (apply Hpen; lia).
      destruct (t_func t (t_args t) (db w)) as [o d].
      unfold resolve in Hstep. rewrite Hft, Hfk in Hstep.
      injection Hstep as <-.
      exists (S k). rewrite loop_top_futures, loop_top_pending by done. simpl.
      rewrite length_insert.
      split; [lia|]. split; [|split].
      * transitivity (seq (S k) m); [exact Hq|f_equal; lia].
      * intros f Hf. unfold resolved. rewrite loop_top_futures. simpl.
        destruct (decide (f = k)) as [->|Hne].
        -- exists o. apply list_lookup_insert_eq. lia.
        -- rewrite list_lookup_insert_ne by done. apply Hres. lia.
      * intros f Hf1 Hf2. rewrite list_lookup_insert_ne by lia.
        apply Hpen; lia.
Qed.

Lemma fifo_inv_exec tr : ∀ w w',
  fifo_inv w → always single_worker tr w → exec tr w = Some w' → fifo_inv w'.
Proof.
  induction tr as [|ev tr IH]; intros w w' Hinv Hal Hex; simpl in *.
  - by injection Hex as <-.
  - destruct Hal as [Hsw Hal].
    destruct (step ev w) as [w1|] eqn:Hstep; [|done].
    eapply IH; [|done|done]. by eapply fifo_inv_step.
Qed.

Lemma step_futures_length ev w w' :
  step ev w = Some w' →
  length (futures w') =
  length (futures w) + match ev with EvSubmit _ _ => 1 | _ => 0 end.
Proof.
  destruct ev as [func args| | |i]; simpl.
  - intros [= <-]. simpl. by rewrite length_app.
  - intros [= <-]. unfold start_world. destruct (running (agent w)); simpl; lia.
  - intros [= <-]. unfold stop_flag. destruct (running (agent w)); simpl; lia.
  - unfold resume. destruct (tasks w !! i) as [[|t| |]|]; try done.
    + intros [= <-]. rewrite loop_top_futures. lia.
    + destruct (t_func t (t_args t) (db w)) as [o d]. unfold resolve.
      destruct (futures w !! t_future t) as [[|]|]; intros [= <-]; simpl;
        try lia.
      rewrite loop_top_futures. simpl. rewrite length_insert. lia.
Qed.

Lemma submitted_seq tr : ∀ w w',
  exec tr w = Some w' →
  length (futures w) ≤ length (futures w')
  ∧ submitted tr w
    = seq (length (futures w)) (length (futures w') - length (futures w)).
Proof.
  induction tr as [|ev tr IH]; intros w w' Hex; simpl in *.
  - injection Hex as <-. by rewrite Nat.sub_diag.
  - destruct (step ev w) as [w1|] eqn:Hstep; [|done].
    destruct (IH _ _ Hex) as [Hle Hsub].
    pose proof (step_futures_length _ _ _ Hstep) as Hlen.
    destruct ev as [func args| | |i]; simpl in *;
      try (rewrite Nat.add_0_r in Hlen; rewrite Hlen in *; by split).
    split; [lia|]. rewrite Hsub, Hlen.
    replace (length (futures w') - length (futures w))
      with (S (length (futures w') - (length (futures w) + 1))) by lia.
    simpl. do 2 f_equal. lia.
Qed.

Lemma fifo_inv_fresh d : fifo_inv (fresh d).
Proof. exists 0. simpl. repeat split; intros; lia. Qed.

Lemma always_exec (P : World → Prop) tr : ∀ w w',
  always P tr w → exec tr w = Some w' → P w'.
Proof.
  induction tr as [|ev tr IH]; intros w w' Hal Hex; simpl in *.
  - injection Hex as <-. by destruct Hal.
  - destruct Hal as [_ Hal].
    destruct (step ev w) as [w1|]; [by eapply IH|done].
Qed.

Lemma exit_all_resolved w i w' :
  fifo_inv w → single_worker w →
  resume i w = Some w' → tasks w' !! i = Some WExited →
  ∀ f, f < length (futures w') → resolved w' f.
Proof.
  intros Hinv Hsw Hres Hexit.
  destruct (resume_exit_only _ _ _ Hres Hexit) as [_ Hq].
  assert (Hpend : inflight (tasks w') ++ queue (agent w') = []).
  { unfold resume in Hres.
    destruct (tasks w !! i) as [[|t| |]|] eqn:Hi; try done.
    - destruct (single_split _ _ _ Hsw Hi eq_refl) as [_ Hup].
      injection Hres as <-. by rewrite loop_top_pending.
    - destruct (single_split _ _ _ Hsw Hi eq_refl) as [_ Hup].
      destruct (t_func t (t_args t) (db w)) as [o d].
      destruct (resolve (t_future t) o (futures w)); injection Hres as <-.
      + by rewrite loop_top_pending.
      + simpl in Hexit. rewrite list_lookup_insert_eq in Hexit;
          [done|by eapply lookup_lt_Some]. }
  destruct (fifo_inv_step (EvResume i) w w' Hinv Hsw Hres)
    as (k & Hk & Hp & Hr & _).
  rewrite Hpend in Hp. simpl in Hp.
  destruct (length (futures w') - k) eqn:Hm; [|done].
  intros f Hf. apply Hr. lia.
Qed.

(** X18: [stop] on a running agent whose worker is its only live [run]
    task and holds or faces entries not yet served, each with an outcome a
    future can carry, returns only after each of them is served in order
    and its future resolved; a worker leaves its loop only when the flag is
    down and the queue is empty; and under any interleaving with one live
    worker at a time, at the moment the worker leaves its loop every future
    handed out so far is resolved. *)
Theorem stop_drains_queue w i s :
  running (agent w) = true →
  worker (agent w) = Some i →
  tasks w !! i = Some s →
  is_live s = true →
  live_count (tasks w) ≤ 1 →
  pending_ok (inflight [s] ++ queue (agent w)) (futures w) →
  deliverable (inflight [s] ++ queue (agent w)) (db w) →
  (∃ w', agent_stop w = Ret () w'
     ∧ running (agent w') = false
     ∧ queue (agent w') = []
     ∧ tasks w' !! i = Some WExited
     ∧ (∀ t, t ∈ inflight [s] ++ queue (agent w) → resolved w' (t_future t))
     ∧ (futures w', db w')
       = serve (inflight [s] ++ queue (agent w)) (futures w) (db w))
  ∧ (∀ j u u', resume j u = Some u' → tasks u' !! j = Some WExited →
       running (agent u) = false ∧ queue (agent u) = [])
  ∧ (∀ d tr j u u',
       exec tr (fresh d) = Some u → always single_worker tr (fresh d) →
       resume j u = Some u' → tasks u' !! j = Some WExited →
       ∀ f, f < length (futures u') → resolved u' f).
Proof.
  intros Hrun Hw Hi Hlive Hone Hok Hdel.
  split; [|split; [apply resume_exit_only|]].
  2: { intros d tr j u u' Hex Hal Hres Hexit.
       eapply exit_all_resolved; [|by eapply always_exec|done|done].
       eapply fifo_inv_exec; [|done|done]. apply fifo_inv_fresh. }
  assert (Hlt : i < length (tasks w)) by (by eapply lookup_lt_Some).
  destruct w as [[wk r q] ts fs d]; simpl in *; subst.
  exists {| agent := {| worker := Some i; running := false; queue := [] |};
            tasks := <[i := WExited]> ts;
            futures := (serve (inflight [s] ++ q) fs d).1;
            db := (serve (inflight [s] ++ q) fs d).2 |}.
  split.
  - unfold agent_stop, stop_flag, await_worker, set_agent, set_running; simpl.
    destruct s as [|t| |]; try done; simpl in Hok.
    + by apply drain_ready.
    + apply drain_busy; [done|done|lia].
  - simpl. split; [done|]. split; [done|].
    split; [by rewrite list_lookup_insert_eq|].
    split; [|by destruct (serve _ fs d)].
    intros t Ht. unfold resolved; simpl. by apply serve_resolved.
Qed.

(** X17: in every world reached from a new agent by submissions, starts,
    stops and worker resumptions interleaved in any order, as long as the
    agent never has two live workers, the resolved futures are exactly a
    prefix of the futures in the order [submit] handed them out. *)
Theorem fifo_resolution d tr w :
  exec tr (fresh d) = Some w →
  always single_worker tr (fresh d) →
  ∃ k, ∀ f, resolved w f ↔ f ∈ take k (submitted tr (fresh d)).
Proof.
  intros Hex Hal.
  assert (Hinv : fifo_inv w).
  { eapply fifo_inv_exec; [|done|done]. apply fifo_inv_fresh. }
  destruct Hinv as (k & Hk & _ & Hres & Hpen).
  destruct (submitted_seq _ _ _ Hex) as [_ Hsub]. simpl in Hsub.
  rewrite Nat.sub_0_r in Hsub.
  exists k. intros f. rewrite Hsub, take_seq, elem_of_seq.
  split.
  - intros [o Ho].
    assert (Hlt : f < length (futures w)) by (by eapply lookup_lt_Some).
    destruct (decide (f < k)); [lia|].
    rewrite Hpen in Ho by lia. done.
  - intros [_ Hf]. apply Hres. lia.
Qed.

(** ** Batched iteration *)

Section Iteration.
(** The cursor handle of [k] has a result set, read by [rows_of]; its
    [fetchmany(100)] hands out the next rows, at most a hundred, and keeps
    the rest. *)
Variable k : AsyncCursor.
Variable rows_of : DB → list Row.
Hypothesis fetchmany_spec : ∀ d, ∃ d',
  call (cursor_connection k) "fetchmany" [VInt 100] d
  = (Returned (VRows (take 100 (rows_of d))), d')
  ∧ rows_of d' = drop 100 (rows_of d).

Local Abbreviation fetched := (fetched k).

Lemma fetched_facts w :
  quiet w → running (agent w) = true →
  quiet (fetched w) ∧ running (agent (fetched w)) = true
  ∧ rows_of (db (fetched w)) = drop 100 (rows_of (db w))
  ∧ futures (fetched w)
    = futures w ++ [Some (Returned (VRows (take 100 (rows_of (db w)))))].
Proof.
  intros Hq Hrun. destruct (fetchmany_spec (db w)) as (d' & Hc & Hd).
  split; [by apply served_quiet|]. split; [done|].
  unfold fetched, served; simpl. by rewrite Hc.
Qed.

Lemma anext_fetch w :
  quiet w → running (agent w) = true →
  cursor_anext k (GRun []) w =
  match take 100 (rows_of (db w)) with
  | [] => Ret (None, GDone) (fetched w)
  | row :: batch => Ret (Some row, GRun batch) (fetched w)
  end.
Proof.
  intros Hq Hrun. destruct (fetchmany_spec (db w)) as (d' & Hc & Hd).
  unfold cursor_anext, in_generator, cursor_fetchmany, make_delegate_method;
    simpl.
  unfold mbind, M_bind. rewrite cursor__execute_quiet by done.
  rewrite Hc. simpl. by destruct (take 100 (rows_of (db w))).
Qed.

Lemma async_for_batch batch : ∀ fuel acc w,
  length batch ≤ fuel →
  async_for fuel k (GRun batch) acc w
  = async_for (fuel - length batch) k (GRun []) (acc ++ batch) w.
Proof.
  induction batch as [|row batch IH]; intros fuel acc w Hfuel; simpl.
  - by rewrite Nat.sub_0_r, app_nil_r.
  - destruct fuel as [|n]; [simpl in Hfuel; lia|]. simpl.
    rewrite IH by (simpl in Hfuel; lia).
    by rewrite <- app_assoc.
Qed.

Lemma async_for_fetch fuel acc w :
  quiet w → running (agent w) = true →
  rows_of (db w) ≠ [] →
  length (take 100 (rows_of (db w))) ≤ fuel →
  async_for fuel k (GRun []) acc w
  = async_for (fuel - length (take 100 (rows_of (db w)))) k (GRun [])
      (acc ++ take 100 (rows_of (db w))) (fetched w).
Proof.
  intros Hq Hrun Hne Hfuel.
  destruct (take 100 (rows_of (db w))) as [|row batch] eqn:Ht.
  { destruct (rows_of (db w)); done. }
  destruct fuel as [|n]; [simpl in Hfuel; lia|].
  change (async_for (S n) k (GRun []) acc w) with
    (match cursor_anext k (GRun []) w with
     | Ret (Some row, g') w' => async_for n k g' (acc ++ [row]) w'
     | Ret (None, g') w' => Some (Ret (acc, g') w')
     | Raise e w' => Some (Raise e w')
     | Hang w' => Some (Hang w')
     end).
  rewrite anext_fetch, Ht by done.
  rewrite async_for_batch by (simpl in Hfuel; lia).
  simpl. by rewrite <- app_assoc.
Qed.

Lemma async_for_end fuel acc w :
  quiet w → running (agent w) = true →
  rows_of (db w) = [] →
  async_for (S fuel) k (GRun []) acc w = Some (Ret (acc, GDone) (fetched w)).
Proof.
  intros Hq Hrun He.
  change (async_for (S fuel) k (GRun []) acc w) with
    (match cursor_anext k (GRun []) w with
     | Ret (Some row, g') w' => async_for fuel k g' (acc ++ [row]) w'
     | Ret (None, g') w' => Some (Ret (acc, g') w')
     | Raise e w' => Some (Raise e w')
     | Hang w' => Some (Hang w')
     end).
  by rewrite anext_fetch, He.
Qed.


End Iteration.

End Proofs.

(** * Instances of the theorems on the example engine *)

Lemma fifo_resolution_witness :
  is_Some (exec demo_trace demo_new)
  ∧ always single_worker demo_trace demo_new
  ∧ ∃ k, ∀ f,
      (∃ w, exec demo_trace demo_new = Some w ∧ resolved w f)
      ↔ f ∈ take k (submitted demo_trace demo_new).
Proof.
  split; [by eexists|]. split.
  { unfold single_worker; simpl; repeat split; lia. }
  destruct (exec demo_trace demo_new) as [w|] eqn:Hex;
    [|discriminate Hex].
  destruct (fifo_resolution (E:=mock) (mock_db [] false) demo_trace w Hex) as [k Hk].
  { unfold single_worker; simpl; repeat split; lia. }
  exists k. intros f. rewrite <- Hk. split.
  - intros (w' & [= <-] & Hr). exact Hr.
  - intros Hr. by exists w.
Defined.

Lemma demo_queued_pending :
  pending_ok (inflight [WReady] ++ queue (agent demo_queued))
    (futures demo_queued).
Proof.
  split.
  - apply NoDup_cons. split.
    + intros H. apply elem_of_cons in H as [H|H]; [discriminate H|].
      by apply elem_of_nil in H.
    + apply NoDup_cons. split; [apply not_elem_of_nil|apply NoDup_nil_2].
  - intros t Ht. apply elem_of_cons in Ht as [->|Ht]; [reflexivity|].
    apply elem_of_cons in Ht as [->|Ht]; [reflexivity|].
    by apply elem_of_nil in Ht.
Defined.

Lemma demo_queued_deliverable :
  deliverable (inflight [WReady] ++ queue (agent demo_queued))
    (db demo_queued).
Proof. repeat split. Defined.

Lemma stop_drains_queue_witness :
  running (agent demo_queued) = true
  ∧ worker (agent demo_queued) = Some 0
  ∧ tasks demo_queued !! 0 = Some WReady
  ∧ is_live WReady = true
  ∧ live_count (tasks demo_queued) ≤ 1
  ∧ pending_ok (inflight [WReady] ++ queue (agent demo_queued))
      (futures demo_queued)
  ∧ deliverable (inflight [WReady] ++ queue (agent demo_queued))
      (db demo_queued)
  ∧ ∃ w', agent_stop demo_queued = Ret () w'
      ∧ futures w' = [Some (Raised KeyboardInterrupt); Some (Returned VNone)].
Proof.
  assert (Hone : live_count (tasks demo_queued) ≤ 1) by (simpl; lia).
  split; [reflexivity|]. split; [reflexivity|]. split; [reflexivity|].
  split; [reflexivity|]. split; [exact Hone|].
  split; [exact demo_queued_pending|]. split; [exact demo_queued_deliverable|].
  destruct (stop_drains_queue (E:=mock) demo_queued 0 WReady
              eq_refl eq_refl eq_refl eq_refl Hone demo_queued_pending
              demo_queued_deliverable)
    as [(w' & Hs & _ & _ & _ & _ & Hserve) _].
  exists w'. split; [exact Hs|].
  exact (f_equal fst Hserve).
Defined.


Lemma demo_fetchmany_spec : ∀ d : MockDB, ∃ d',
  call (cursor_connection demo_cursor) "fetchmany" [VInt 100] d
  = (Returned (VRows (take 100 (m_rows d))), d')
  ∧ m_rows d' = drop 100 (m_rows d).
Proof. intros d. eexists. split; reflexivity. Defined.






Lemma start_stop_idempotent_witness :
  running (agent (start_world demo_new)) = true
  ∧ running (agent demo_new) = false
  ∧ agent_start (start_world demo_new) = Ret () (start_world demo_new)
  ∧ agent_stop demo_new = Ret () demo_new.
Proof.
  split; [reflexivity|]. split; [reflexivity|].
  destruct (start_stop_idempotent (E:=mock) (start_world demo_new) demo_new
              eq_refl eq_refl) as (H1 & H2 & _).
  split; [exact H1|exact H2].
Defined.


(** The hypothesis of one live worker in [fifo_resolution] is needed:
    [start] does not wait for a worker that [stop] is still draining, so a
    restart at that moment leaves two live workers, and the second one can
    resolve a younger future first. *)
Remark restart_while_draining :
  ∃ w, exec demo_restart demo_new = Some w
    ∧ live_count (tasks w) = 2
    ∧ futures w = [None; Some (Returned VNone)]
    ∧ ¬ always single_worker demo_restart demo_new.
Proof.
  eexists. split; [reflexivity|]. split; [reflexivity|].
  split; [reflexivity|].
  unfold single_worker; simpl. intros H.
  do 6 (destruct H as [_ H]). destruct H as [H _]. lia.
Qed.

(** * Further properties of the agent *)

Section Agent.
Context {E : Engine}.
Implicit Types (w : World) (func : Callable) (args : list Value).

(** ** Single assignment *)

Lemma resolved_step ev w w' f o :
  futures w !! f = Some (Some o) → step ev w = Some w' →
  futures w' !! f = Some (Some o).
Proof.
  intros Hf. destruct ev as [func args| | |i]; simpl.
  - intros [= <-]. simpl. rewrite lookup_app_l; [done|by eapply lookup_lt_Some].
  - intros [= <-]. unfold start_world. by destruct (running (agent w)).
  - intros [= <-]. unfold stop_flag. by destruct (running (agent w)).
  - unfold resume. destruct (tasks w !! i) as [[|t| |]|]; try done.
    + intros [= <-]. by rewrite loop_top_futures.
    + destruct (t_func t (t_args t) (db w)) as [o' d].
      destruct (resolve _ _ _) as [fs|] eqn:Hr; intros [= <-]; [|done].
      rewrite loop_top_futures. simpl. unfold resolve in Hr.
      destruct (futures w !! _) as [[o''|]|] eqn:Ht in Hr; [done| |done].
      injection Hr as <-.
      rewrite list_lookup_insert_ne; [done|]. intros Heq. congruence.
Qed.

(** X1: once a future holds an outcome, no later submission, start, stop
    or worker resumption changes it, in any interleaving and with any
    number of workers. *)
Theorem resolved_outcome_is_final tr : ∀ w w' f o,
  futures w !! f = Some (Some o) →
  exec tr w = Some w' →
  futures w' !! f = Some (Some o).
Proof.
  induction tr as [|ev tr IH]; intros w w' f o Hf Hex; simpl in Hex.
  - by injection Hex as <-.
  - destruct (step ev w) as [w1|] eqn:Hstep; [|done].
    eapply IH; [|done]. by eapply resolved_step.
Qed.

(** ** What the worker loop keeps, in any interleaving *)

Lemma loop_top_tasks i w :
  tasks (loop_top i w) =
  <[i := match queue (agent w) with
         | [] => if running (agent w) then WReady else WExited
         | t :: _ => WBusy t
         end]> (tasks w).
Proof. unfold loop_top. by destruct (running (agent w)), (queue (agent w)). Qed.

Lemma loop_top_queue i w :
  queue (agent (loop_top i w)) = tail (queue (agent w)).
Proof.
  unfold loop_top.
  by destruct (running (agent w)), (queue (agent w)) eqn:Hq; simpl.
Qed.

Lemma loop_top_worker i w :
  worker (agent (loop_top i w)) = worker (agent w).
Proof. unfold loop_top. by destruct (running (agent w)), (queue (agent w)). Qed.

Lemma live_count_insert ts i s s' :
  ts !! i = Some s →
  live_count (<[i := s']> ts) + (if is_live s then 1 else 0)
  = live_count ts + (if is_live s' then 1 else 0).
Proof.
  revert i. induction ts as [|s0 ts IH]; intros [|i] Hi; simpl in *; try done.
  - injection Hi as ->. lia.
  - specialize (IH i Hi). lia.
Qed.

Lemma inflight_insert ts i s :
  ts !! i = Some s →
  ∃ l1 l2, inflight ts = l1 ++ inflight [s] ++ l2
           ∧ ∀ s', inflight (<[i := s']> ts) = l1 ++ inflight [s'] ++ l2.
Proof.
  intros Hi. exists (inflight (take i ts)), (inflight (drop (S i) ts)).
  assert (Hlt : i < length ts) by (by eapply lookup_lt_Some).
  assert (Hgen : ∀ s', inflight (take i ts ++ s' :: drop (S i) ts)
                       = inflight (take i ts) ++ inflight [s']
                         ++ inflight (drop (S i) ts)).
  { intros s'. rewrite inflight_app. f_equal.
    change (s' :: drop (S i) ts) with ([s'] ++ drop (S i) ts).
    by rewrite inflight_app. }
  split.
  - rewrite <- (take_drop_middle ts i s Hi) at 1. apply Hgen.
  - intros s'. rewrite insert_take_drop by done. apply Hgen.
Qed.

Lemma inflight_le_live ts : length (inflight ts) ≤ live_count ts.
Proof.
  induction ts as [|s ts IH]; simpl; [done|]. destruct s; simpl; lia.
Qed.

Lemma pending_ok_perm l l' fs :
  l ≡ₚ l' → pending_ok l fs → pending_ok l' fs.
Proof.
  intros Hp [Hnd Hl]. split.
  - by rewrite <- Hp.
  - intros t Ht. apply Hl. by rewrite Hp.
Qed.

Lemma pending_ok_snoc l fs func args :
  pending_ok l fs →
  pending_ok (l ++ [{| t_future := length fs; t_func := func;
                       t_args := args |}]) (fs ++ [None]).
Proof.
  intros [Hnd Hl]. split.
  - rewrite fmap_app. apply NoDup_app. split; [done|]. split.
    + intros f Hf Hin. apply list_elem_of_fmap in Hf as (t & -> & Ht).
      apply list_elem_of_singleton in Hin. simpl in Hin.
      apply Hl, lookup_lt_Some in Ht. lia.
    + apply NoDup_singleton.
  - intros t [Ht| ->%list_elem_of_singleton]%elem_of_app.
    + rewrite lookup_app_l; [by apply Hl|]. eapply lookup_lt_Some. by apply Hl.
    + simpl. by rewrite list_lookup_middle.
Qed.

(** The bookkeeping of one pass over the loop head: the entry dequeued
    moves from the queue to the worker. *)
Lemma loop_top_held i w s l1 l2 :
  tasks w !! i = Some s →
  inflight (tasks w) = l1 ++ inflight [s] ++ l2 →
  (∀ s', inflight (<[i := s']> (tasks w)) = l1 ++ inflight [s'] ++ l2) →
  inflight (tasks (loop_top i w)) ++ queue (agent (loop_top i w))
  ≡ₚ l1 ++ l2 ++ queue (agent w).
Proof.
  intros Hi Hin Hgen. rewrite loop_top_tasks, loop_top_queue, Hgen.
  destruct (queue (agent w)) as [|t q]; simpl.
  - destruct (running (agent w)); simpl; solve_Permutation.
  - solve_Permutation.
Qed.

Lemma sound_step ev w w' : sound w → step ev w = Some w' → sound w'.
Proof.
  intros Hsw. pose proof Hsw as (Hok & Hnf & Hlive).
  destruct ev as [func args| | |i]; simpl.
  - intros [= <-]. unfold sound. simpl. split; [|done].
    rewrite app_assoc. by apply pending_ok_snoc.
  - intros [= <-]. unfold start_world.
    destruct (running (agent w)) eqn:Hr; simpl; [done|].
    unfold sound. simpl.
    rewrite inflight_app, app_nil_r. split; [done|]. split.
    + apply Forall_app. split; [done|]. by apply Forall_singleton.
    + intros _. exists (length (tasks w)), WReady.
      by rewrite list_lookup_middle.
  - intros [= <-]. unfold stop_flag.
    destruct (running (agent w)) eqn:Hr; simpl; [|done].
    unfold sound. simpl. done.
  - unfold resume. destruct (tasks w !! i) as [[|t| |]|] eqn:Hi; try done.
    + intros [= <-].
      destruct (inflight_insert _ _ _ Hi) as (l1 & l2 & Hin & Hgen).
      split; [|split].
      * rewrite loop_top_futures.
        eapply pending_ok_perm; [symmetry; by eapply loop_top_held|].
        rewrite Hin in Hok. simpl in Hok. by rewrite app_assoc.
      * rewrite loop_top_tasks. apply Forall_insert; [done|].
        by destruct (queue (agent w)), (running (agent w)).
      * rewrite loop_top_running, loop_top_worker, loop_top_tasks.
        intros Hr. destruct (Hlive Hr) as (j & s & Hw & Hj & Hs).
        exists j. destruct (decide (j = i)) as [->|Hne].
        -- eexists. split; [done|].
           rewrite list_lookup_insert_eq by (by eapply lookup_lt_Some).
           split; [done|]. rewrite Hr. by destruct (queue (agent w)).
        -- exists s. by rewrite list_lookup_insert_ne.
    + destruct (t_func t (t_args t) (db w)) as [o d].
      destruct (inflight_insert _ _ _ Hi) as (l1 & l2 & Hin & Hgen).
      assert (Hok' : pending_ok (t :: l1 ++ l2 ++ queue (agent w)) (futures w)).
      { eapply pending_ok_perm; [|exact Hok]. rewrite Hin. simpl.
        solve_Permutation. }
      assert (Hpen : futures w !! t_future t = Some None).
      { apply Hok'. apply list_elem_of_here. }
      unfold resolve. rewrite Hpen. intros [= <-].
      set (w1 := {| agent := agent w; tasks := tasks w;
                    futures := <[t_future t := Some o]> (futures w);
                    db := d |}).
      split; [|split].
      * rewrite loop_top_futures.
        eapply pending_ok_perm;
          [symmetry; by eapply (loop_top_held i w1 (WBusy t))|].
        by apply pending_ok_tail.
      * rewrite loop_top_tasks. apply Forall_insert; [done|]. simpl.
        by destruct (queue (agent w)), (running (agent w)).
      * rewrite loop_top_running, loop_top_worker, loop_top_tasks. simpl.
        intros Hr. destruct (Hlive Hr) as (j & s & Hw & Hj & Hs).
        exists j. destruct (decide (j = i)) as [->|Hne].
        -- eexists. split; [done|].
           rewrite list_lookup_insert_eq by (by eapply lookup_lt_Some).
           split; [done|]. rewrite Hr. by destruct (queue (agent w)).
        -- exists s. by rewrite list_lookup_insert_ne.
Qed.

Lemma sound_fresh d : sound (fresh d).
Proof.
  split; [|split]; simpl; [|done|done].
  split; [apply NoDup_nil_2|]. intros t Ht. by apply elem_of_nil in Ht.
Qed.

Lemma sound_exec tr : ∀ w w', sound w → exec tr w = Some w' → sound w'.
Proof.
  induction tr as [|ev tr IH]; intros w w' Hs Hex; simpl in Hex.
  - by injection Hex as <-.
  - destruct (step ev w) as [w1|] eqn:Hstep; [|done].
    eapply IH; [|done]. by eapply sound_step.
Qed.

(** X2: in every world reached from a new agent, by any interleaving of
    submissions, starts, stops and worker resumptions (also with several
    workers alive), no [run] task has ended by an exception, every entry
    held by a worker or queued has a pending future of its own, and while
    the flag is up the task in [self.worker] is alive. *)
Theorem worker_loop_never_fails d tr w :
  exec tr (fresh d) = Some w →
  Forall (λ s, failed s = false) (tasks w)
  ∧ pending_ok (inflight (tasks w) ++ queue (agent w)) (futures w)
  ∧ (running (agent w) = true →
     ∃ i s, worker (agent w) = Some i ∧ tasks w !! i = Some s
            ∧ is_live s = true).
Proof.
  intros Hex.
  destruct (sound_exec tr (fresh d) w (sound_fresh d) Hex) as (H1 & H2 & H3).
  done.
Qed.

(** ** Without [stop] *)

Lemma guarded_step ev w w' :
  is_stop ev = false → guarded w → step ev w = Some w' → guarded w'.
Proof.
  unfold guarded. intros Hev Hg.
  destruct ev as [func args| | |i]; simpl; try done.
  - by intros [= <-].
  - intros [= <-]. unfold start_world.
    destruct (running (agent w)) eqn:Hr; simpl; [by rewrite Hr|].
    rewrite live_count_app. simpl. lia.
  - intros Hres. rewrite (resume_running _ _ _ Hres).
    enough (live_count (tasks w') ≤ live_count (tasks w)) by lia.
    revert Hres. unfold resume.
    destruct (tasks w !! i) as [[|t| |]|] eqn:Hi; try done.
    + intros [= <-]. rewrite loop_top_tasks.
      match goal with |- context [<[i := ?x]> _] =>
        pose proof (live_count_insert _ _ _ x Hi) as Hc end.
      simpl in Hc. destruct (queue (agent w)), (running (agent w));
        simpl in Hc; lia.
    + destruct (t_func t (t_args t) (db w)) as [o d].
      destruct (resolve _ _ _); intros [= <-]; simpl.
      * rewrite loop_top_tasks. simpl.
        match goal with |- context [<[i := ?x]> _] =>
          pose proof (live_count_insert _ _ _ x Hi) as Hc end.
        simpl in Hc. destruct (queue (agent w)), (running (agent w));
          simpl in Hc; lia.
      * pose proof (live_count_insert _ _ _ WFailed Hi) as Hc.
        simpl in Hc. lia.
Qed.

Lemma guarded_always tr : ∀ w,
  Forall (λ ev, is_stop ev = false) tr → guarded w → always guarded tr w.
Proof.
  induction tr as [|ev tr IH]; intros w Hns Hg; simpl; [done|].
  split; [done|]. apply Forall_cons in Hns as [Hev Hns].
  destruct (step ev w) as [w1|] eqn:Hstep; [|done].
  apply IH; [done|]. by eapply guarded_step.
Qed.

Lemma always_impl (P Q : World → Prop) tr : ∀ w,
  (∀ u, P u → Q u) → always P tr w → always Q tr w.
Proof.
  induction tr as [|ev tr IH]; intros w HPQ; simpl.
  - intros [HP _]. by split; [apply HPQ|].
  - intros [HP Hal]. split; [by apply HPQ|].
    destruct (step ev w); [by apply IH|done].
Qed.

Lemma guarded_single w : guarded w → single_worker w.
Proof.
  unfold guarded, single_worker. destruct (running (agent w)); lia.
Qed.

Lemma fifo_inv_prefix d tr w :
  exec tr (fresh d) = Some w → fifo_inv w →
  ∃ k, ∀ f, resolved w f ↔ f ∈ take k (submitted tr (fresh d)).
Proof.
  intros Hex (k & Hk & _ & Hres & Hpen).
  destruct (submitted_seq _ _ _ Hex) as [_ Hsub]. simpl in Hsub.
  rewrite Nat.sub_0_r in Hsub.
  exists k. intros f. rewrite Hsub, take_seq, elem_of_seq.
  split.
  - intros [o Ho].
    assert (Hlt : f < length (futures w)) by (by eapply lookup_lt_Some).
    destruct (decide (f < k)); [lia|].
    rewrite Hpen in Ho by lia. done.
  - intros [_ Hf]. apply Hres. lia.
Qed.

(** X3: as long as [stop] is not called, an agent has at most one live
    [run] task and at most one entry in flight at every moment, however
    submissions, repeated starts and resumptions interleave; so the
    resolved futures are a prefix of the futures in submission order. *)
Theorem one_worker_without_stop d tr w :
  Forall (λ ev, is_stop ev = false) tr →
  exec tr (fresh d) = Some w →
  always (λ u, single_worker u ∧ length (inflight (tasks u)) ≤ 1)
         tr (fresh d)
  ∧ ∃ k, ∀ f, resolved w f ↔ f ∈ take k (submitted tr (fresh d)).
Proof.
  intros Hns Hex.
  assert (Hg : always guarded tr (fresh d)).
  { apply guarded_always; [done|]. unfold guarded. simpl. lia. }
  split.
  - eapply always_impl; [|exact Hg]. intros u Hu.
    apply guarded_single in Hu. split; [done|].
    pose proof (inflight_le_live (tasks u)). unfold single_worker in Hu. lia.
  - apply fifo_inv_prefix; [done|].
    eapply fifo_inv_exec; [apply fifo_inv_fresh| |done].
    eapply always_impl; [|exact Hg]. apply guarded_single.
Qed.

(** ** Pending futures and entries *)

Lemma tracked_step ev w w' : tracked w → step ev w = Some w' → tracked w'.
Proof.
  unfold tracked. intros Htr.
  destruct ev as [func args| | |i]; simpl.
  - intros [= <-] f. simpl. intros Hf.
    rewrite app_assoc, fmap_app, elem_of_app.
    destruct (decide (f < length (futures w))) as [Hlt|Hge].
    + left. apply Htr. by rewrite lookup_app_l in Hf.
    + right. apply lookup_lt_Some in Hf. rewrite length_app in Hf.
      simpl in Hf. simpl. apply list_elem_of_singleton. lia.
  - intros [= <-]. unfold start_world.
    destruct (running (agent w)); simpl; [done|].
    by rewrite inflight_app, app_nil_r.
  - intros [= <-]. unfold stop_flag. by destruct (running (agent w)).
  - unfold resume. destruct (tasks w !! i) as [[|t| |]|] eqn:Hi; try done.
    + intros [= <-] f.
      destruct (inflight_insert _ _ _ Hi) as (l1 & l2 & Hin & Hgen).
      rewrite loop_top_futures, (loop_top_held i w WReady l1 l2) by done.
      intros Hf. specialize (Htr f Hf). rewrite Hin in Htr.
      simpl in Htr. by rewrite app_assoc.
    + destruct (t_func t (t_args t) (db w)) as [o d].
      destruct (inflight_insert _ _ _ Hi) as (l1 & l2 & Hin & Hgen).
      assert (Hrest : ∀ f, futures w !! f = Some None → f ≠ t_future t →
                f ∈ t_future <$> (l1 ++ l2 ++ queue (agent w))).
      { intros f Hf Hne. specialize (Htr f Hf). rewrite Hin in Htr.
        simpl in Htr. rewrite !fmap_app, !elem_of_app in Htr.
        rewrite fmap_cons, elem_of_cons in Htr.
        rewrite !fmap_app, !elem_of_app. tauto. }
      unfold resolve.
      destruct (futures w !! t_future t) as [[o'|]|] eqn:Ht; intros [= <-] f;
        simpl.
      * rewrite Hgen. simpl. rewrite <- app_assoc.
        intros Hf. apply Hrest; [done|]. intros ->. congruence.
      * rewrite loop_top_futures.
        rewrite (loop_top_held i _ (WBusy t) l1 l2) by done. simpl.
        intros Hf. destruct (decide (f = t_future t)) as [->|Hne].
        -- rewrite list_lookup_insert_eq in Hf by (by eapply lookup_lt_Some).
           done.
        -- rewrite list_lookup_insert_ne in Hf by done. by apply Hrest.
      * rewrite Hgen. simpl. rewrite <- app_assoc.
        intros Hf. apply Hrest; [done|]. intros ->. congruence.
Qed.

Lemma tracked_exec tr : ∀ w w', tracked w → exec tr w = Some w' → tracked w'.
Proof.
  induction tr as [|ev tr IH]; intros w w' Hs Hex; simpl in Hex.
  - by injection Hex as <-.
  - destruct (step ev w) as [w1|] eqn:Hstep; [|done].
    eapply IH; [|done]. by eapply tracked_step.
Qed.

(** X13: in every world reached from a new agent, whatever the
    interleaving, the pending futures are exactly the futures of the
    entries that are queued or held by a worker: no entry is dropped before
    its future is resolved, and none stays behind after. *)
Theorem no_submission_is_lost d tr w :
  exec tr (fresh d) = Some w →
  ∀ f, futures w !! f = Some None
       ↔ f ∈ t_future <$> (inflight (tasks w) ++ queue (agent w)).
Proof.
  intros Hex f. split.
  - apply (tracked_exec tr (fresh d) w); [|done]. by intros f' Hf'.
  - destruct (sound_exec tr (fresh d) w (sound_fresh d) Hex) as ([_ Hp] & _).
    intros (t & -> & Ht)%list_elem_of_fmap. by apply Hp.
Qed.

(** ** A restart while the worker drains *)

(** X14: [start] does not wait for a worker that [stop] has told to leave:
    fired after the flag flip of [stop] and before the old worker has
    finished its entry, it creates a second [run] task; both are alive and
    each takes an entry, so that two calls on the engine are in flight at
    once. *)
Theorem restart_during_drain_adds_worker d func1 args1 func2 args2 :
  ∃ w, exec [EvStart; EvSubmit func1 args1; EvSubmit func2 args2; EvResume 0;
             EvStop; EvStart; EvResume 1] (fresh d) = Some w
    ∧ live_count (tasks w) = 2
    ∧ t_future <$> inflight (tasks w) = [0; 1]
    ∧ t_func <$> inflight (tasks w) = [func1; func2]
    ∧ futures w = [None; None]
    ∧ running (agent w) = true.
Proof.
  eexists. split; [reflexivity|]. done.
Qed.

(** ** An exception that no future carries *)

Lemma submits_keep_worker tr : ∀ w w',
  Forall (λ ev, is_submit ev = true) tr →
  exec tr w = Some w' →
  tasks w' = tasks w ∧ db w' = db w
  ∧ length (queue (agent w')) = length (queue (agent w)) + length tr
  ∧ ∀ f o, futures w !! f = Some o → futures w' !! f = Some o.
Proof.
  induction tr as [|ev tr IH]; intros w w' Hall Hex; simpl in Hex.
  - injection Hex as <-. simpl. repeat split; [lia|done].
  - apply Forall_cons in Hall as [Hev Hall].
    destruct ev as [func args| | |j]; try done. simpl in Hex.
    destruct (IH _ _ Hall Hex) as (Ht & Hd & Hq & Hf). simpl in *.
    split; [done|]. split; [done|]. split.
    + rewrite Hq, length_app. simpl. lia.
    + intros f o Ho. apply Hf. rewrite lookup_app_l; [done|].
      by eapply lookup_lt_Some.
Qed.

(** C3: a call that raises [StopIteration] is not captured: the thread's
    result never reaches the worker, which is not resumed again and stores
    nothing; the future of the call stays pending, and what is submitted
    afterwards stays in the queue. *)
Theorem stop_iteration_blocks_worker w i t e d1 tr w' :
  tasks w !! i = Some (WBusy t) →
  futures w !! t_future t = Some None →
  t_func t (t_args t) (db w) = (Raised e, d1) →
  is_stop_iteration e = true →
  Forall (λ ev, is_submit ev = true) tr →
  exec tr w = Some w' →
  run_step i w' = None
  ∧ tasks w' !! i = Some (WBusy t)
  ∧ futures w' !! t_future t = Some None
  ∧ length (queue (agent w')) = length (queue (agent w)) + length tr.
Proof.
  intros Hi Hf Hcall He Hall Hex.
  destruct (submits_keep_worker tr w w' Hall Hex) as (Ht & Hd & Hq & Hfs).
  split; [|split; [by rewrite Ht|split; [by apply Hfs|done]]].
  unfold run_step. rewrite Ht, Hi, Hd, Hcall. simpl. by rewrite He.
Qed.

End Agent.

(** * Further properties of the facades *)

Section Facades.
Context {E : Engine}.
Implicit Types (w : World) (func : Callable) (args : list Value).

Local Arguments run_until : simpl never.

(** ** The exit hook of a session *)

Lemma conn_close_ret (self : AsyncConnection) w v w1 :
  conn_close self w = Ret v w1 → v = VNone ∧ running (agent w1) = false.
Proof.
  unfold conn_close. unfold mbind at 1, M_bind at 1.
  destruct (conn__execute self _ [] w) as [a w2|e w2|w2]; try done.
  unfold mbind, M_bind, get_running.
  destruct (running (agent w2)) eqn:Hr; simpl.
  - destruct (agent_stop w2) as [[] w3|e w3|w3] eqn:Hs; try done.
    intros [= <- <-]. split; [done|]. by eapply agent_stop_not_running.
  - by intros [= <- <-].
Qed.

(** X4: the exit hook of a session does what [close] does and nothing
    more, in every world and for every way the body ended: when [close]
    returns the flag is down, so the hook's own [stop] is never reached;
    when [close] raises or stays suspended, so does the hook. *)
Theorem exit_hook_is_close (self : AsyncConnection) exc w :
  conn_aexit self exc w = conn_close self w.
Proof.
  unfold conn_aexit. unfold mbind at 1, M_bind at 1.
  destruct (conn_close self w) as [v w1|e w1|w1] eqn:Hc; try done.
  apply conn_close_ret in Hc as [-> Hr].
  unfold mbind, M_bind, get_running. by rewrite Hr.
Qed.

(** ** Cursors of a session *)

(** X5: [cursor()] calls the handle from the caller's own context: it
    never waits, it starts no agent, queues nothing and creates no future,
    whatever the worker is doing; the handle the engine returns, or the
    exception it raises, is what the caller gets. *)
Theorem cursor_is_made_outside_the_queue (self : AsyncConnection) w :
  (∃ w', world_of (conn_cursor self w) = Some w' ∧ same_agent w w')
  ∧ match call (conn_connection self) "cursor" [] (db w) with
    | (Returned (VHandle c), d) =>
        conn_cursor self w = Ret {| cursor_connection := c |} (set_db d w)
    | (Raised e, d) => conn_cursor self w = Raise e (set_db d w)
    | _ => True
    end.
Proof.
  unfold conn_cursor, cursor_init, handle_call, mbind, M_bind.
  destruct (call (conn_connection self) "cursor" [] (db w)) as [[v|e] d];
    simpl.
  2: { split; [|done]. by eexists. }
  destruct v as [|z|str|rs|c]; simpl.
  5: { split; [|done]. by eexists. }
  all: split; [|done].
  all: repeat match goal with
       | |- context [if ?b then _ else _] => destruct b; simpl
       | |- context [call ?h ?n ?a ?d] =>
           destruct (call h n a d) as [[[]|] ?]; simpl
       end; by eexists.
Qed.


(** ** Delegated and direct calls *)


(** ** A call behind other callers' entries *)

Lemma serve_app q1 q2 fs d :
  serve (q1 ++ q2) fs d = serve q2 (serve q1 fs d).1 (serve q1 fs d).2.
Proof.
  revert fs d. induction q1 as [|t q1 IH]; intros fs d; simpl; [done|].
  destruct (t_func t (t_args t) d) as [o d']. apply IH.
Qed.

Lemma serve_length q fs d : length (serve q fs d).1 = length fs.
Proof.
  revert fs d. induction q as [|t q IH]; intros fs d; simpl; [done|].
  destruct (t_func t (t_args t) d) as [o d']. by rewrite IH, length_insert.
Qed.

Lemma serve_ext q fs extra d :
  (∀ t, t ∈ q → t_future t < length fs) →
  serve q (fs ++ extra) d = ((serve q fs d).1 ++ extra, (serve q fs d).2).
Proof.
  revert fs d. induction q as [|t q IH]; intros fs d Hlt; simpl; [done|].
  destruct (t_func t (t_args t) d) as [o d'].
  rewrite insert_app_l by (apply Hlt, list_elem_of_here).
  apply IH. intros t' Ht'. rewrite length_insert.
  apply Hlt. by apply elem_of_cons; right.
Qed.

Lemma last_default_cons {A} (x y : A) l :
  default x (last (y :: l)) = default y (last l).
Proof. rewrite last_cons. by destruct (last l). Qed.

(** The worker holds [t] and faces [l]: it serves them all in order, and
    the caller that waits for the last of them is resumed when the worker
    is back at the head of the loop. *)
Lemma await_busy l : ∀ t ts fs d i wk r fuel,
  ts !! i = Some (WBusy t) →
  pending_ok (t :: l) fs →
  length l + 1 ≤ fuel →
  run_until (future_done (t_future (default t (last l)))) fuel (Some i)
    {| agent := {| worker := wk; running := r; queue := l |};
       tasks := ts; futures := fs; db := d |}
  = match (serve (t :: l) fs d).1 !! t_future (default t (last l)) with
    | Some (Some o) =>
        deliver o
          {| agent := {| worker := wk; running := r; queue := [] |};
             tasks := <[i := if r then WReady else WExited]> ts;
             futures := (serve (t :: l) fs d).1;
             db := (serve (t :: l) fs d).2 |}
    | _ => Hang
          {| agent := {| worker := wk; running := r; queue := [] |};
             tasks := <[i := if r then WReady else WExited]> ts;
             futures := (serve (t :: l) fs d).1;
             db := (serve (t :: l) fs d).2 |}
    end.
Proof.
  induction l as [|t' l IH]; intros t ts fs d i wk r fuel Hi Hok Hfuel;
    (destruct fuel as [|n]; [simpl in Hfuel; lia|]);
    assert (Hlt : i < length ts) by (by eapply lookup_lt_Some);
    assert (Hf : fs !! t_future t = Some None)
      by (apply Hok; by apply elem_of_cons; left);
    simpl serve; destruct (t_func t (t_args t) d) as [o d'] eqn:Hcall.
  - simpl last. simpl default.
    rewrite (run_until_step _ _ i _
      {| agent := {| worker := wk; running := r; queue := [] |};
         tasks := <[i := if r then WReady else WExited]> ts;
         futures := <[t_future t := Some o]> fs; db := d' |}).
    + cbn [fst snd].
      rewrite list_lookup_insert_eq by (by eapply lookup_lt_Some).
      apply run_until_done. unfold future_done; simpl.
      by rewrite list_lookup_insert_eq by (by eapply lookup_lt_Some).
    + unfold future_done; simpl. by rewrite Hf.
    + unfold spins; simpl. by rewrite Hi.
    + unfold resume, resolve; simpl. rewrite Hi, Hcall, Hf.
      unfold loop_top; simpl. by destruct r.
  - rewrite last_default_cons.
    assert (Hin : default t' (last l) ∈ t :: t' :: l).
    { apply elem_of_cons; right. destruct (last l) as [x|] eqn:Hl; simpl.
      - apply elem_of_cons; right. by apply last_Some_elem_of.
      - apply list_elem_of_here. }
    rewrite (run_until_step _ _ i _
      {| agent := {| worker := wk; running := r; queue := l |};
         tasks := <[i := WBusy t']> ts;
         futures := <[t_future t := Some o]> fs; db := d' |}).
    + rewrite (IH t' (<[i := WBusy t']> ts)).
      * by rewrite list_insert_insert_eq.
      * by apply list_lookup_insert_eq.
      * by apply pending_ok_tail.
      * simpl in Hfuel. lia.
    + unfold future_done; simpl. by rewrite (proj2 Hok _ Hin).
    + unfold spins; simpl. by rewrite Hi.
    + unfold resume, resolve; simpl. rewrite Hi, Hcall, Hf.
      unfold loop_top; simpl. by destruct r.
Qed.

Lemma await_ready t l ts fs d i wk r fuel :
  ts !! i = Some WReady →
  pending_ok (t :: l) fs →
  length l + 2 ≤ fuel →
  run_until (future_done (t_future (default t (last l)))) fuel (Some i)
    {| agent := {| worker := wk; running := r; queue := t :: l |};
       tasks := ts; futures := fs; db := d |}
  = match (serve (t :: l) fs d).1 !! t_future (default t (last l)) with
    | Some (Some o) =>
        deliver o
          {| agent := {| worker := wk; running := r; queue := [] |};
             tasks := <[i := if r then WReady else WExited]> ts;
             futures := (serve (t :: l) fs d).1;
             db := (serve (t :: l) fs d).2 |}
    | _ => Hang
          {| agent := {| worker := wk; running := r; queue := [] |};
             tasks := <[i := if r then WReady else WExited]> ts;
             futures := (serve (t :: l) fs d).1;
             db := (serve (t :: l) fs d).2 |}
    end.
Proof.
  intros Hi Hok Hfuel. destruct fuel as [|n]; [lia|].
  assert (Hlt : i < length ts) by (by eapply lookup_lt_Some).
  assert (Hin : default t (last l) ∈ t :: l).
  { destruct (last l) as [x|] eqn:Hl; simpl.
    - apply elem_of_cons; right. by apply last_Some_elem_of.
    - apply list_elem_of_here. }
  rewrite (run_until_step _ _ i _
    {| agent := {| worker := wk; running := r; queue := l |};
       tasks := <[i := WBusy t]> ts; futures := fs; db := d |}).
  - rewrite (await_busy l t (<[i := WBusy t]> ts)).
    + by rewrite list_insert_insert_eq.
    + by apply list_lookup_insert_eq.
    + done.
    + lia.
  - unfold future_done; simpl. by rewrite (proj2 Hok _ Hin).
  - unfold spins; simpl. rewrite Hi. by destruct r.
  - unfold resume; simpl. rewrite Hi. unfold loop_top; simpl. by destruct r.
Qed.

Lemma submit_await_backlog func args w i s :
  running (agent w) = true →
  worker (agent w) = Some i →
  tasks w !! i = Some s →
  is_live s = true →
  pending_ok (inflight [s] ++ queue (agent w)) (futures w) →
  let backlog := inflight [s] ++ queue (agent w) in
  let fs := (serve backlog (futures w) (db w)).1 in
  let d := (serve backlog (futures w) (db w)).2 in
  (future ← agent_submit func args; await_future future;; future_result future) w
  = deliver (func args d).1
      {| agent := set_queue [] (agent w);
         tasks := <[i := WReady]> (tasks w);
         futures := fs ++ [Some (func args d).1];
         db := (func args d).2 |}.
Proof.
  destruct w as [[wk r q] ts fs0 d0].
  cbn [agent tasks futures db running worker queue set_queue].
  intros -> -> Hi Hlive Hok.
  set (tf := {| t_future := length fs0; t_func := func; t_args := args |}).
  set (backlog := inflight [s] ++ q).
  pose proof (pending_ok_snoc _ _ func args Hok) as Hok'. fold tf backlog in Hok'.
  assert (Hlen : length (serve backlog fs0 d0).1 = length fs0)
    by apply serve_length.
  assert (Hserve : serve (backlog ++ [tf]) (fs0 ++ [None]) d0
    = ((serve backlog fs0 d0).1 ++ [Some (func args (serve backlog fs0 d0).2).1],
       (func args (serve backlog fs0 d0).2).2)).
  { rewrite serve_app, serve_ext.
    2: { intros t Ht. eapply lookup_lt_Some. by apply Hok. }
    simpl. destruct (func args (serve backlog fs0 d0).2) as [o d']. simpl.
    f_equal. rewrite <- Hlen.
    replace (length (serve backlog fs0 d0).1)
      with (length (serve backlog fs0 d0).1 + 0) at 1 by lia.
    by rewrite insert_app_r. }
  assert (Hlook : ((serve backlog fs0 d0).1
                   ++ [Some (func args (serve backlog fs0 d0).2).1])
                  !! length fs0
                  = Some (Some (func args (serve backlog fs0 d0).2).1)).
  { rewrite <- Hlen. by rewrite list_lookup_middle. }
  unfold mbind, M_bind, agent_submit, submit_world, await_future, set_queue;
    simpl. fold tf.
  assert (Hrun : run_until (future_done (length fs0))
            (length (q ++ [tf]) + 2) (Some i)
            {| agent := {| worker := Some i; running := true;
                           queue := q ++ [tf] |};
               tasks := ts; futures := fs0 ++ [None]; db := d0 |}
          = deliver (func args (serve backlog fs0 d0).2).1
              {| agent := {| worker := Some i; running := true; queue := [] |};
                 tasks := <[i := WReady]> ts;
                 futures := (serve backlog fs0 d0).1
                            ++ [Some (func args (serve backlog fs0 d0).2).1];
                 db := (func args (serve backlog fs0 d0).2).2 |}).
  { destruct s as [|t| |]; try done; unfold backlog in *;
      cbn [inflight app] in *.
    - destruct q as [|t q]; cbn [app] in *.
      + pose proof (await_ready tf [] ts (fs0 ++ [None]) d0 i (Some i) true
                      (length [tf] + 2) Hi Hok' ltac:(simpl; lia)) as H.
        simpl default in H. simpl t_future in H.
        rewrite Hserve in H. cbn [fst snd] in H. rewrite Hlook in H.
        exact H.
      + pose proof (await_ready t (q ++ [tf]) ts (fs0 ++ [None]) d0 i
                      (Some i) true (length (t :: q ++ [tf]) + 2) Hi Hok'
                      ltac:(simpl; lia)) as H.
        rewrite last_snoc in H. simpl default in H. simpl t_future in H.
        rewrite Hserve in H. cbn [fst snd] in H. rewrite Hlook in H.
        exact H.
    - pose proof (await_busy (q ++ [tf]) t ts (fs0 ++ [None]) d0 i
                    (Some i) true (length (q ++ [tf]) + 2) Hi Hok'
                    ltac:(lia)) as H.
      rewrite last_snoc in H. simpl default in H. simpl t_future in H.
      rewrite Hserve in H. cbn [fst snd] in H. rewrite Hlook in H.
      exact H. }
  rewrite Hrun.
  destruct (func args (serve backlog fs0 d0).2).1 as [v|e] eqn:Ho; simpl;
    [|done].
  unfold future_result; simpl. by rewrite Hlook.
Qed.

(** X8: a call made while entries of other callers are held by the worker
    or queued (a running agent whose worker is its only live [run] task;
    every outcome one a future can carry) is executed after all of them, on
    the engine state they leave, and the caller gets the outcome of its own
    call; when it is resumed every earlier future is resolved, the queue is
    empty and the worker is parked at the head of the loop.  The session
    and its cursors behave the same here. *)
Theorem execute_runs_behind_backlog (self : AsyncConnection)
    (k : AsyncCursor) func args w i s :
  running (agent w) = true →
  worker (agent w) = Some i →
  tasks w !! i = Some s →
  is_live s = true →
  live_count (tasks w) ≤ 1 →
  pending_ok (inflight [s] ++ queue (agent w)) (futures w) →
  deliverable (inflight [s] ++ queue (agent w)) (db w) →
  carried (func args (serve (inflight [s] ++ queue (agent w))
                        (futures w) (db w)).2).1 = true →
  let backlog := inflight [s] ++ queue (agent w) in
  let fs := (serve backlog (futures w) (db w)).1 in
  let d := (serve backlog (futures w) (db w)).2 in
  let w' := {| agent := set_queue [] (agent w);
               tasks := <[i := WReady]> (tasks w);
               futures := fs ++ [Some (func args d).1];
               db := (func args d).2 |} in
  conn__execute self func args w = deliver (func args d).1 w'
  ∧ cursor__execute k func args w = deliver (func args d).1 w'
  ∧ (∀ t, t ∈ backlog → resolved w' (t_future t))
  ∧ quiet w'.
Proof.
  intros Hr Hw Hi Hlive Hone Hok Hdel Hown backlog fs d w'.
  pose proof (submit_await_backlog func args w i s Hr Hw Hi Hlive Hok) as Hs.
  split; [|split; [exact Hs|split]].
  - unfold conn__execute, get_running, when.
    unfold mbind at 1, M_bind at 1. rewrite Hr. simpl negb. cbv iota.
    unfold mbind at 1, M_bind at 1. unfold mret at 1, M_ret at 1. exact Hs.
  - intros t Ht. destruct (serve_resolved backlog (futures w) (db w) t Hok Ht)
      as [o Ho].
    exists o. subst w'. simpl. rewrite lookup_app_l; [done|].
    by eapply lookup_lt_Some.
  - split; simpl; [done|]. intros _. exists i. split; [done|].
    apply list_lookup_insert_eq. by eapply lookup_lt_Some.
Qed.

(** ** What a call does to the life of the agent *)

Lemma run_until_future_inv (P : World → Prop) f fuel i : ∀ w,
  (∀ j u u', P u → resume j u = Some u' → P u') →
  P w → P (final (run_until (future_done f) fuel i w)).
Proof.
  intros w Hstep. revert w.
  induction fuel as [|n IH]; intros w HP.
  - rewrite run_until_0. unfold future_done.
    destruct (futures w !! f) as [[[]|]|]; done.
  - rewrite run_until_S. unfold future_done at 1.
    destruct (futures w !! f) as [[[]|]|]; try done;
      destruct i as [j|]; try done;
      destruct (spins j w); try done;
      destruct (resume j w) as [w'|] eqn:Hres; try done;
      apply IH; by eapply Hstep.
Qed.

Lemma resume_lifecycle j u u' :
  resume j u = Some u' →
  running (agent u') = running (agent u)
  ∧ worker (agent u') = worker (agent u)
  ∧ length (tasks u') = length (tasks u).
Proof.
  intros Hres. split; [by eapply resume_running|]. revert Hres.
  unfold resume. destruct (tasks u !! j) as [[|t| |]|]; try done.
  - intros [= <-]. rewrite loop_top_worker, loop_top_tasks.
    by rewrite length_insert.
  - destruct (t_func t (t_args t) (db u)) as [o d].
    destruct (resolve _ _ _); intros [= <-]; simpl.
    + rewrite loop_top_worker, loop_top_tasks. by rewrite length_insert.
    + by rewrite length_insert.
Qed.

Lemma submit_await_lifecycle func args w :
  let r := (future ← agent_submit func args;
            await_future future;; future_result future) w in
  running (agent (final r)) = running (agent w)
  ∧ worker (agent (final r)) = worker (agent w)
  ∧ length (tasks (final r)) = length (tasks w).
Proof.
  unfold mbind, M_bind, agent_submit, submit_world, await_future. simpl.
  match goal with |- context [run_until ?dn ?fl ?i ?u] =>
    pose proof (run_until_future_inv
      (λ u', running (agent u') = running (agent w)
             ∧ worker (agent u') = worker (agent w)
             ∧ length (tasks u') = length (tasks w))
      (length (futures w)) fl i u) as Hinv;
    destruct (run_until dn fl i u) as [v w1|e w1|w1] eqn:Hrun
  end; simpl in *.
  all: assert (Hfin : running (agent w1) = running (agent w)
                      ∧ worker (agent w1) = worker (agent w)
                      ∧ length (tasks w1) = length (tasks w)).
  all: try (apply Hinv; [|done]; intros j u u' (H1 & H2 & H3) Hres;
            destruct (resume_lifecycle _ _ _ Hres) as (-> & -> & ->); done).
  all: try done.
  unfold future_result. by destruct (futures w1 !! _) as [[[]|]|].
Qed.

(** X15: however a forwarded call ends (it returns, raises, or its caller
    stays suspended), and in whatever world it is made: a call on a cursor
    leaves the flag, the worker handle and the number of [run] tasks as
    they were, so it never starts or stops the agent; a call on the session
    leaves the flag up, and creates a [run] task only when the flag was
    down. *)
Theorem calls_and_the_life_of_the_agent (self : AsyncConnection)
    (k : AsyncCursor) func args w :
  running (agent (final (cursor__execute k func args w))) = running (agent w)
  ∧ worker (agent (final (cursor__execute k func args w))) = worker (agent w)
  ∧ length (tasks (final (cursor__execute k func args w))) = length (tasks w)
  ∧ running (agent (final (conn__execute self func args w))) = true
  ∧ length (tasks (final (conn__execute self func args w)))
    = length (tasks w) + (if running (agent w) then 0 else 1).
Proof.
  destruct (submit_await_lifecycle func args w) as (H1 & H2 & H3).
  split; [exact H1|]. split; [exact H2|]. split; [exact H3|].
  unfold conn__execute, get_running, when.
  unfold mbind at 1 5, M_bind at 1 5.
  destruct (running (agent w)) eqn:Hr; simpl negb; cbv iota.
  - unfold mbind at 1 4, M_bind at 1 4. unfold mret at 1 2, M_ret at 1 2.
    split; [by rewrite H1|]. rewrite H3. lia.
  - unfold mbind at 1 4, M_bind at 1 4. unfold agent_start at 1 2.
    destruct (submit_await_lifecycle func args (start_world w))
      as (G1 & _ & G3).
    rewrite G1, G3. unfold start_world. rewrite Hr. simpl.
    split; [done|]. by rewrite length_app.
Qed.

End Facades.

(** * Further properties of the iteration *)

Section Rows.
Context {E : Engine}.
Variable k : AsyncCursor.

Lemma iter_fetched_facts c : ∀ w,
  quiet w → running (agent w) = true →
  quiet (Nat.iter c (fetched k) w)
  ∧ running (agent (Nat.iter c (fetched k) w)) = true
  ∧ length (futures (Nat.iter c (fetched k) w)) = length (futures w) + c.
Proof.
  induction c as [|c IH]; intros w Hq Hr.
  - simpl. split; [done|]. split; [done|]. lia.
  - destruct (IH w Hq Hr) as (Hq' & Hr' & Hl). rewrite Nat.iter_succ.
    split; [by apply served_quiet|]. split; [done|].
    unfold fetched at 1, served. cbn [futures].
    rewrite length_app, Hl. simpl. lia.
Qed.


Variable rows_of : DB → list Row.
Hypothesis fetchmany_spec : ∀ d, ∃ d',
  call (cursor_connection k) "fetchmany" [VInt 100] d
  = (Returned (VRows (take 100 (rows_of d))), d')
  ∧ rows_of d' = drop 100 (rows_of d).

Lemma calls_step n : 0 < n → (n + 99) / 100 = S ((n - 100 + 99) / 100).
Proof.
  intros Hn. destruct (decide (n < 100)) as [Hlt|Hge].
  - replace (n - 100 + 99) with 99 by lia.
    change (99 / 100) with 0. symmetry. apply (Nat.div_unique _ _ _ (n - 1)); lia.
  - replace (n + 99) with (1 * 100 + (n - 100 + 99)) by lia.
    rewrite Nat.div_add_l by done. lia.
Qed.

Lemma async_for_all n : ∀ w fuel acc,
  length (rows_of (db w)) = n →
  quiet w → running (agent w) = true → n < fuel →
  async_for fuel k (GRun []) acc w
  = Some (Ret (acc ++ rows_of (db w), GDone)
            (Nat.iter ((n + 99) / 100 + 1) (fetched k) w))
  ∧ rows_of (db (Nat.iter ((n + 99) / 100 + 1) (fetched k) w)) = [].
Proof.
  induction n as [n IH] using lt_wf_ind. intros w fuel acc Hlen Hq Hr Hfuel.
  destruct (fetched_facts k rows_of fetchmany_spec w Hq Hr)
    as (Hq1 & Hr1 & Hrows1 & _).
  destruct (rows_of (db w)) as [|row rows] eqn:Hrows.
  - simpl in Hlen. subst n. change ((0 + 99) / 100 + 1) with 1.
    change (Nat.iter 1 (fetched k) w) with (fetched k w).
    destruct fuel as [|f]; [lia|].
    rewrite (async_for_end k rows_of fetchmany_spec) by done.
    rewrite app_nil_r. split; [done|]. by rewrite Hrows1.
  - assert (Hpos : 0 < n) by (simpl in Hlen; lia).
    rewrite <- Hrows in *.
    assert (Htake : length (take 100 (rows_of (db w))) = n `min` 100)
      by (rewrite length_take; lia).
    rewrite (async_for_fetch k rows_of fetchmany_spec);
      [|done|done|by rewrite Hrows|lia].
    assert (Hm : length (rows_of (db (fetched k w))) = n - 100)
      by (rewrite Hrows1, length_drop; lia).
    destruct (IH (n - 100) ltac:(lia) (fetched k w)
                (fuel - length (take 100 (rows_of (db w))))
                (acc ++ take 100 (rows_of (db w))) Hm Hq1 Hr1 ltac:(lia))
      as [Hrun Hend].
    rewrite calls_step by done.
    change (S ((n - 100 + 99) / 100) + 1)
      with (S ((n - 100 + 99) / 100 + 1)).
    rewrite Nat.iter_succ_r. split; [|done].
    rewrite Hrun, Hrows1, <- app_assoc. by rewrite take_drop.
Qed.


End Rows.

(** * The decorators *)

Section Decorators.
Implicit Types (cls : Class) (attrs : list string) (n : string).

Lemma foldl_setattr_lookup (mk : string → Attr) attrs : ∀ cls n,
  foldl (λ c a, setattr c a (mk a)) cls attrs !! n
  = if decide (n ∈ attrs) then Some (mk n) else cls !! n.
Proof.
  induction attrs as [|a attrs IH]; intros cls n; simpl.
  - done.
  - rewrite IH. destruct (decide (n ∈ attrs)) as [Hin|Hnin].
    + rewrite decide_True; [done|]. by apply elem_of_cons; right.
    + unfold setattr. destruct (decide (n = a)) as [->|Hne].
      * rewrite lookup_insert_eq. rewrite decide_True; [done|].
        apply list_elem_of_here.
      * rewrite lookup_insert_ne by done.
        rewrite decide_False; [done|].
        intros [?|?]%elem_of_cons; done.
Qed.

(** X11: each decorator binds the names it is given, each to the attribute
    made for that very name, whatever the class had under the name before
    (a function of the body is replaced), and leaves every other name of
    the class as it was. *)
Theorem decorators_bind_their_names attrs cls n :
  delegate_to_agent attrs cls !! n
  = (if decide (n ∈ attrs) then Some (ADelegate n) else cls !! n)
  ∧ proxy_method_directly attrs cls !! n
    = (if decide (n ∈ attrs) then Some (AProxyMethod n) else cls !! n)
  ∧ proxy_property_directly attrs cls !! n
    = (if decide (n ∈ attrs) then Some (AProxyProperty n) else cls !! n).
Proof.
  split; [|split]; apply foldl_setattr_lookup.
Qed.

(** X12: what the names of the two classes are bound to once the class
    statements have run: a name of the delegate list is the delegate method
    for that name, [rowcount] of a session is the proxy property, and only
    the other names of the body keep the function written there; so
    [close], [execute] and [executemany] of a session are the functions of
    the body, and those of a cursor are delegate methods. *)
Theorem class_attributes n :
  AsyncConnection_class !! n
  = (if decide (n ∈ conn_delegated) then Some (ADelegate n)
     else if decide (n ∈ conn_proxied) then Some (AProxyProperty n)
     else if decide (n ∈ ["__init__"; "__aenter__"; "__aexit__"; "_execute";
                          "cursor"; "close"; "execute"; "executemany"])
          then Some (ABody n) else None)
  ∧ AsyncCursor_class !! n
    = (if decide (n ∈ cursor_delegated) then Some (ADelegate n)
       else if decide (n ∈ ["__init__"; "__aenter__"; "__aexit__";
                            "__aiter__"; "_execute"])
            then Some (ABody n) else None)
  ∧ AsyncConnection_class !! "close" = Some (ABody "close")
  ∧ AsyncConnection_class !! "execute" = Some (ABody "execute")
  ∧ AsyncCursor_class !! "close" = Some (ADelegate "close")
  ∧ AsyncCursor_class !! "execute" = Some (ADelegate "execute").
Proof.
  assert (H1 : AsyncConnection_class !! n
    = (if decide (n ∈ conn_delegated) then Some (ADelegate n)
       else if decide (n ∈ conn_proxied) then Some (AProxyProperty n)
       else if decide (n ∈ ["__init__"; "__aenter__"; "__aexit__"; "_execute";
                            "cursor"; "close"; "execute"; "executemany"])
            then Some (ABody n) else None)).
  { unfold AsyncConnection_class, delegate_to_agent, proxy_property_directly,
      class_body.
    by rewrite !foldl_setattr_lookup, lookup_empty. }
  assert (H2 : AsyncCursor_class !! n
    = (if decide (n ∈ cursor_delegated) then Some (ADelegate n)
       else if decide (n ∈ ["__init__"; "__aenter__"; "__aexit__";
                            "__aiter__"; "_execute"])
            then Some (ABody n) else None)).
  { unfold AsyncCursor_class, delegate_to_agent, class_body.
    by rewrite !foldl_setattr_lookup, lookup_empty. }
  split; [exact H1|]. split; [exact H2|].
  repeat split; vm_compute; reflexivity.
Qed.

End Decorators.

Lemma resolved_outcome_is_final_witness :
  ∃ w', exec demo_later demo_served = Some w'
        ∧ futures w' !! 0 = Some (Some (Raised KeyboardInterrupt)).
Proof.
  eexists. split; [vm_compute; reflexivity|].
  apply (resolved_outcome_is_final (E:=mock) demo_later demo_served);
    vm_compute; reflexivity.
Defined.

Lemma worker_loop_never_fails_witness :
  ∃ w, exec demo_restart demo_new = Some w
       ∧ Forall (λ s, failed s = false) (tasks w)
       ∧ pending_ok (inflight (tasks w) ++ queue (agent w)) (futures w)
       ∧ (running (agent w) = true →
          ∃ i s, worker (agent w) = Some i ∧ tasks w !! i = Some s
                 ∧ is_live s = true).
Proof.
  eexists. split; [vm_compute; reflexivity|].
  apply (worker_loop_never_fails (E:=mock) (mock_db [] false) demo_restart).
  vm_compute; reflexivity.
Defined.

Lemma one_worker_without_stop_witness :
  ∃ w, exec demo_unstopped demo_new = Some w
       ∧ always (λ u, single_worker u ∧ length (inflight (tasks u)) ≤ 1)
                demo_unstopped demo_new
       ∧ ∃ k, ∀ f, resolved w f ↔ f ∈ take k (submitted demo_unstopped demo_new).
Proof.
  eexists. split; [vm_compute; reflexivity|].
  apply (one_worker_without_stop (E:=mock) (mock_db [] false) demo_unstopped).
  - repeat constructor.
  - vm_compute; reflexivity.
Defined.



Lemma demo_behind_pending :
  pending_ok (inflight [WReady] ++ queue (agent demo_behind))
    (futures demo_behind).
Proof.
  split.
  - apply NoDup_cons. split; [apply not_elem_of_nil|apply NoDup_nil_2].
  - intros t Ht. apply elem_of_cons in Ht as [->|Ht]; [reflexivity|].
    by apply elem_of_nil in Ht.
Defined.

Lemma execute_runs_behind_backlog_witness :
  running (agent demo_behind) = true
  ∧ worker (agent demo_behind) = Some 0
  ∧ tasks demo_behind !! 0 = Some WReady
  ∧ is_live WReady = true
  ∧ live_count (tasks demo_behind) ≤ 1
  ∧ pending_ok (inflight [WReady] ++ queue (agent demo_behind))
      (futures demo_behind)
  ∧ deliverable (inflight [WReady] ++ queue (agent demo_behind))
      (db demo_behind)
  ∧ ∃ w', cursor__execute demo_cursor (call 1 "fetchmany") [VInt 100]
            demo_behind
          = Ret (VRows (take 100 (drop 100 demo_rows))) w'.
Proof.
  assert (Hone : live_count (tasks demo_behind) ≤ 1) by (simpl; lia).
  assert (Hdel : deliverable (inflight [WReady] ++ queue (agent demo_behind))
                   (db demo_behind)) by (repeat split).
  split; [reflexivity|]. split; [reflexivity|]. split; [reflexivity|].
  split; [reflexivity|]. split; [exact Hone|].
  split; [exact demo_behind_pending|]. split; [exact Hdel|].
  destruct (execute_runs_behind_backlog (E:=mock) demo_conn demo_cursor
              (call 1 "fetchmany") [VInt 100] demo_behind 0 WReady
              eq_refl eq_refl eq_refl eq_refl Hone demo_behind_pending
              Hdel eq_refl)
    as (_ & Hk & _).
  eexists. exact Hk.
Defined.



Lemma no_submission_is_lost_witness :
  ∃ w, exec demo_restart demo_new = Some w
       ∧ futures w !! 0 = Some None
       ∧ 0 ∈ t_future <$> (inflight (tasks w) ++ queue (agent w)).
Proof.
  eexists. split; [vm_compute; reflexivity|]. split; [reflexivity|].
  apply (no_submission_is_lost (E:=mock) (mock_db [] false) demo_restart).
  - vm_compute; reflexivity.
  - reflexivity.
Defined.

Lemma stop_iteration_blocks_worker_witness :
  tasks demo_stuck !! 0
  = Some (WBusy {| t_future := 0; t_func := call (Engine:=scripted) 0 "fetchone";
                   t_args := [] |})
  ∧ futures demo_stuck !! 0 = Some None
  ∧ call (Engine:=scripted) 0 "fetchone" [] (db demo_stuck)
    = (Raised StopIteration, [])
  ∧ is_stop_iteration StopIteration = true
  ∧ ∃ w', exec [EvSubmit (call (Engine:=scripted) 0 "commit") []] demo_stuck
          = Some w'
      ∧ run_step 0 w' = None
      ∧ futures w' = [None; None]
      ∧ length (queue (agent w')) = 1.
Proof.
  split; [reflexivity|]. split; [reflexivity|]. split; [reflexivity|].
  split; [reflexivity|].
  eexists. split; [reflexivity|].
  destruct (stop_iteration_blocks_worker (E:=scripted) demo_stuck 0
              {| t_future := 0; t_func := call (Engine:=scripted) 0 "fetchone";
                 t_args := [] |}
              StopIteration []
              [EvSubmit (call (Engine:=scripted) 0 "commit") []] _
              eq_refl eq_refl eq_refl eq_refl
              ltac:(repeat constructor) eq_refl)
    as (H1 & _ & _ & H4).
  split; [exact H1|]. split; [reflexivity|exact H4].
Defined.

(** C1: a [start] between the flag flip of a [stop] and the exit of the
    worker it drains leaves two live workers; the younger worker resolves
    the second future while the first is still pending, so the resolved
    futures are no prefix of the submission order. *)
Theorem fifo_broken_by_restart :
  ∃ w, exec demo_restart demo_new = Some w
    ∧ submitted demo_restart demo_new = [0; 1]
    ∧ live_count (tasks w) = 2
    ∧ futures w = [None; Some (Returned VNone)]
    ∧ ¬ ∃ k, ∀ f, resolved w f ↔ f ∈ take k (submitted demo_restart demo_new).
Proof.
  eexists. split; [reflexivity|]. split; [reflexivity|].
  split; [reflexivity|]. split; [reflexivity|].
  intros [k Hk].
  assert (H1 : 1 ∈ take k [0; 1]).
  { apply (Hk 1). by eexists. }
  assert (H0 : 0 ∈ take k [0; 1]).
  { destruct k as [|[|k]]; simpl in *.
    - by apply elem_of_nil in H1.
    - apply elem_of_cons in H1 as [H1|H1]; [done|by apply elem_of_nil in H1].
    - apply list_elem_of_here. }
  apply (Hk 0) in H0 as [o Ho]. discriminate Ho.
Qed.

(** C2: with two live workers, [stop] returns when the worker it waits for
    has left the loop, and that worker leaves as soon as it finds the flag
    down and the queue empty; the entry that was queued is then in the
    hands of the other worker and its future is still pending. *)
Theorem stop_returns_before_drain :
  ∃ u w', exec demo_overlap demo_new = Some u
    ∧ running (agent u) = true
    ∧ worker (agent u) = Some 1
    ∧ tasks u !! 1 = Some WReady
    ∧ t_future <$> queue (agent u) = [1]
    ∧ futures u !! 1 = Some None
    ∧ exec demo_stop u = Some w'
    ∧ running (agent w') = false
    ∧ queue (agent w') = []
    ∧ tasks w' !! 1 = Some WExited
    ∧ futures w' !! 1 = Some None.
Proof.
  eexists _, _. split; [reflexivity|]. split; [reflexivity|].
  split; [reflexivity|]. split; [reflexivity|]. split; [reflexivity|].
  split; [reflexivity|]. split; [reflexivity|]. done.
Qed.
